(** * Revolutional Secure Angou (TokyoWesterns CTF 2018): the recovery script

    A shallow embedding of the code cell of
    [twctf18/revolutional-secure-angou/revolutional-secure-angou.ipynb]
    (a SageMath 8.1 / Python 2 notebook) and of the library calls it makes,
    followed by the properties of the script.

    Python longs and Sage Integers are unbounded, so they are [Z]; the Sage
    quotient [n / p] is a rational, so it is a [Q] in lowest terms; byte
    strings are [list byte].  The [while not r] loop has no bound in the
    source: the embedding runs it on fuel and an exhausted fuel is the
    separate outcome [OutOfFuel], never a Python exception. *)

From Stdlib Require Import ZArith Lia List Bool QArith Qreduction Sorted.
From Stdlib Require Import Zdivisibility Zcong Zmod.
From Stdlib.Strings Require Import Byte.
Import ListNotations.
Local Open Scope Z_scope.

(** ** Outcomes *)

(** The Python exceptions the cell can raise. *)
Inductive exn : Set :=
| ZeroDivisionError
| TypeError
| ArithmeticError
| IndexError.

Inductive outcome (A : Type) : Type :=
| Done (a : A)
| Raise (x : exn)
| OutOfFuel.

Arguments Done {A} a.
Arguments Raise {A} x.
Arguments OutOfFuel {A}.

Definition bind {A B : Type} (m : outcome A) (f : A -> outcome B) : outcome B :=
  match m with
  | Done a => f a
  | Raise x => Raise x
  | OutOfFuel => OutOfFuel
  end.

Notation "x <- m ;; f" := (bind m (fun x => f))
  (at level 61, m at next level, right associativity).

(** ** The Sage calls of the cell *)

Module Sage.

(** [(N - p*(k*p + 1)).roots(p, ring=ZZ)]: the integer roots of the
    polynomial [-k*p^2 - p + N], each paired with its multiplicity.
    For [k <> 0] the discriminant [1 + 4*k*N] is odd, so it never
    vanishes and every root is simple.  Sage lists the roots in the order of
    the sorted factors [p - x], the larger root first (two integer roots
    only occur for [|k| = 1]); for [k >= 2], the values of the script, the
    list has at most one entry (see [roots_length]). *)
Definition roots (N k : Z) : list (Z * Z) :=
  if k =? 0 then [(N, 1)]
  else
    let D := 1 + 4 * k * N in
    if D <? 0 then []
    else
      let s := Z.sqrt D in
      if negb (s * s =? D) then []
      else
        let lo := Z.min ((-1 - s) / (2 * k)) ((-1 + s) / (2 * k)) in
        let hi := Z.max ((-1 - s) / (2 * k)) ((-1 + s) / (2 * k)) in
        filter (fun xm => N - fst xm * (k * fst xm + 1) =? 0)
               (if lo =? hi then [(lo, 1)] else [(hi, 1); (lo, 1)]).

(** [n / p] with [n] a Python long and [p] a Sage Integer: the operands
    are coerced to Integers and the quotient is an element of the rational
    field, in lowest terms; a zero divisor raises. *)
Definition div (n p : Z) : outcome Q :=
  if p =? 0 then Raise ZeroDivisionError
  else Done (Qred (inject_Z n / inject_Z p)).

(** [Integer(x)] for a rational [x]:
    "no conversion of this rational to integer" unless the denominator
    is one. *)
Definition Integer_of_Rational (x : Q) : outcome Z :=
  let x' := Qred x in
  if (Qden x' =? 1)%positive then Done (Qnum x') else Raise TypeError.

(** [Integer.inverse_mod]: zero for a modulus of absolute value one,
    "Inverse does not exist." when the operands are not coprime, and
    otherwise the inverse in [[0, |m|)] that [mpz_invert] computes.  (GMP
    leaves a zero modulus unspecified; no property below rests on it.) *)
Definition Integer_inverse_mod (a m : Z) : outcome Z :=
  if Z.abs m =? 1 then Done 0
  else if Z.gcd a m =? 1 then Done (Z.invmod a (Z.abs m))
  else Raise ZeroDivisionError.

(** [inverse_mod(a, m)] with [a] a Python long: [a] has no method
    [inverse_mod], so the call is [Integer(a).inverse_mod(m)], which first
    converts the modulus to an Integer. *)
Definition inverse_mod (a : Z) (m : Q) : outcome Z :=
  m' <- Integer_of_Rational m ;;
  Integer_inverse_mod a m'.

(** [power_mod(a, n, m)] of [sage.arith.misc]: repeated squaring, every
    intermediate value reduced with Python's [%], whose result has the sign
    of the modulus like [Z.modulo]. *)
Definition power_mod (a n m : Z) : outcome Z :=
  if m =? 0 then Raise ZeroDivisionError
  else if m =? 1 then Done 0
  else if n <? 0 then
    ainv <- Integer_inverse_mod a m ;;
    Done ((ainv ^ (- n)) mod m)
  else if n =? 0 then
    (if a =? 0 then Raise ArithmeticError else Done 1)
  else Done ((a ^ n) mod m).

End Sage.

(** ** The PyCrypto and Python calls of the cell *)

Module PyCrypto.

Definition byte_of_Z (z : Z) : byte :=
  match Byte.of_N (Z.to_N (z mod 256)) with
  | Some b => b
  | None => x00
  end.

(** [struct.pack('>I', w)]: the four bytes of a 32-bit word, most
    significant first. *)
Definition pack_I (w : Z) : list byte :=
  [byte_of_Z (Z.shiftr w 24); byte_of_Z (Z.shiftr w 16);
   byte_of_Z (Z.shiftr w 8); byte_of_Z w].

(** The [while n > 0] loop of [long_to_bytes]: one 32-bit word per turn,
    prepended to what was produced so far. *)
Fixpoint words (fuel : nat) (n : Z) (s : list byte) : list byte :=
  match fuel with
  | O => s
  | S fuel' =>
      if 0 <? n
      then words fuel' (Z.shiftr n 32) (pack_I (Z.land n 4294967295) ++ s)
      else s
  end.

Fixpoint strip_zeros (s : list byte) : list byte :=
  match s with
  | x00 :: s' => strip_zeros s'
  | _ => s
  end.

(** [long_to_bytes(n)] with the default [blocksize = 0]: the big-endian
    bytes of [n] without leading zero bytes, and the single byte zero when
    nothing is left.  The loop runs once per 32-bit word of [n], which
    [Z.log2 n + 1] turns always cover. *)
Definition long_to_bytes (n : Z) : list byte :=
  match strip_zeros (words (S (Z.to_nat (Z.log2 n))) n []) with
  | [] => [x00]
  | s => s
  end.

Definition Z_of_byte (b : byte) : Z := Z.of_N (Byte.to_N b).

(** [struct.unpack('>I', w)[0]]: the 32-bit word of four bytes, most
    significant first. *)
Definition unpack_I (w : list byte) : Z :=
  match w with
  | [a; b; c; d] =>
      Z.shiftl (Z_of_byte a) 24 + Z.shiftl (Z_of_byte b) 16
      + Z.shiftl (Z_of_byte c) 8 + Z_of_byte d
  | _ => 0
  end.

(** [[
    for i in range(0, length, 4):
        acc = (acc << 32) + unpack('>I', s[i:i+4])[0]
    ]]
    on a string whose length is a multiple of four. *)
Fixpoint unpack_words (s : list byte) (acc : Z) : Z :=
  match s with
  | a :: b :: c :: d :: s' =>
      unpack_words s' (Z.shiftl acc 32 + unpack_I [a; b; c; d])
  | _ => acc
  end.

(** [bytes_to_long(s)]: the string is first padded in front with zero
    bytes to a multiple of four. *)
Definition bytes_to_long (s : list byte) : Z :=
  let extra := (4 - length s mod 4)%nat in
  let s' := if (length s mod 4 =? 0)%nat then s else repeat x00 extra ++ s in
  unpack_words s' 0.

End PyCrypto.

Module Python.

(** [s[i:]]: a negative start counts from the end, and both ends are
    clipped to the string. *)
Definition slice_from (i : Z) (s : list byte) : list byte :=
  let len := Z.of_nat (length s) in
  let start := if i <? 0 then Z.max (len + i) 0 else Z.min i len in
  skipn (Z.to_nat start) s.

End Python.

(** The last [len] bytes of a string (all of it when it is shorter). *)
Definition trailing (len : nat) (s : list byte) : list byte :=
  skipn (length s - len) s.

(** ** The cell *)

(** What the loop leaves behind: the root list [r], the variable [k], and
    (a ghost of the embedding) the values [k] had when [eq] was built, in
    the order of the turns. *)
Record loop_exit : Type := LoopExit {
  exit_r : list (Z * Z);
  exit_k : Z;
  tested : list Z
}.

Definition log_turn (k : Z) (x : loop_exit) : loop_exit :=
  LoopExit (exit_r x) (exit_k x) (k :: tested x).

(** [[
    while not r:
        eq = n * e - p * (k * p + 1)
        r = eq.roots(p, ring=ZZ)
        k += 2
    ]]
    entered with [r = None], so the body runs at least once; [None] is an
    exhausted fuel. *)
Fixpoint search (fuel : nat) (n e k : Z) : option loop_exit :=
  match fuel with
  | O => None
  | S fuel' =>
      let r := Sage.roots (n * e) k in
      let k' := k + 2 in
      match r with
      | [] => option_map (log_turn k) (search fuel' n e k')
      | _ :: _ => Some (LoopExit r k' [k])
      end
  end.

(** The variables of the cell after the decryption. *)
Record secrets : Type := Secrets {
  sec_p : Z;
  sec_q : Q;
  sec_d : Z;
  sec_plaintext : Z
}.

(** [[
    k = 2
    while not r: ...
    p = r[0][0]
    q = n / p
    d = inverse_mod(e, (p-1) * (q-1))
    plaintext = power_mod(ciphertext, d, n)
    ]] *)
Definition recover (fuel : nat) (n e ciphertext : Z) : outcome secrets :=
  match search fuel n e 2 with
  | None => OutOfFuel
  | Some x =>
      match exit_r x with
      | [] => Raise IndexError
      | (p, _) :: _ =>
          q <- Sage.div n p ;;
          d <- Sage.inverse_mod e (Qred (inject_Z (p - 1) * (q - 1))%Q) ;;
          plaintext <- Sage.power_mod ciphertext d n ;;
          Done (Secrets p q d plaintext)
      end
  end.

(** *** The cell over any answer of the library

    The function [search] runs the loop on the list that [Sage.roots]
    computes.  What the cell can rely on is less: the answer of
    [roots(ring=ZZ)] holds every integer root of the polynomial once, with
    its multiplicity, in an order that is the library's.  The relations
    below run the cell on any such answer. *)

Definition roots_answer (N k : Z) (r : list (Z * Z)) : Prop :=
  NoDup r /\
  forall x mu, In (x, mu) r <-> mu = 1 /\ N = x * (k * x + 1).

(** The loop, from the value of [k] on entry to the [r] and the [k] it
    leaves with. *)
Inductive loop_runs (n e : Z) : Z -> list (Z * Z) -> Z -> Prop :=
| loop_leave k r :
    roots_answer (n * e) k r -> r <> [] ->
    loop_runs n e k r (k + 2)
| loop_turn k r k' :
    roots_answer (n * e) k [] -> loop_runs n e (k + 2) r k' ->
    loop_runs n e k r k'.

(** The lines after the loop, on the list [r] it left with. *)
Definition after_loop (n e ciphertext : Z) (r : list (Z * Z))
  : outcome secrets :=
  match r with
  | [] => Raise IndexError
  | (p, _) :: _ =>
      q <- Sage.div n p ;;
      d <- Sage.inverse_mod e (Qred (inject_Z (p - 1) * (q - 1))%Q) ;;
      plaintext <- Sage.power_mod ciphertext d n ;;
      Done (Secrets p q d plaintext)
  end.

(** A run of the cell that leaves the loop, and how it ends. *)
Inductive cell_runs (n e ciphertext : Z) : outcome secrets -> Prop :=
| cell_run r k :
    loop_runs n e 2 r k ->
    cell_runs n e ciphertext (after_loop n e ciphertext r).

(** [long_to_bytes(plaintext)[-48:]] *)
Definition flag_of (plaintext : Z) : list byte :=
  Python.slice_from (-48) (PyCrypto.long_to_bytes plaintext).

(** The bytes the cell prints. *)
Definition output (fuel : nat) (n e ciphertext : Z) : outcome (list byte) :=
  s <- recover fuel n e ciphertext ;;
  Done (flag_of (sec_plaintext s)).

(** [[
    with open('flag.encrypted', 'r') as f:
        ciphertext = bytes_to_long(f.read())
    ]]
    followed by the rest of the cell, for a key [(n, e)] already loaded. *)
Definition cell (fuel : nat) (n e : Z) (flag_encrypted : list byte)
  : outcome (list byte) :=
  output fuel n e (PyCrypto.bytes_to_long flag_encrypted).

(** The number a byte string denotes, most significant byte first. *)
Definition be_value (s : list byte) : Z :=
  fold_left (fun acc b => acc * 256 + PyCrypto.Z_of_byte b) s 0.

(** ** The keys of [generator.rb] *)

(** [p] prime, [q = e^-1 mod p] (the representative in [[0, p)] that
    [mod_inverse] returns) prime, and [e] a usable public exponent for
    [n = p * q]. *)
Record weak_key (p q e : Z) : Prop := WeakKey {
  wk_p : Z.prime p;
  wk_q : Z.prime q;
  wk_range : 0 < q < p;
  wk_inv : (q * e) mod p = 1;
  wk_e : Z.coprime e ((p - 1) * (q - 1))
}.

(** The exact relation behind the attack. *)
Definition weak_relation (p q e k : Z) : Prop := q * e = k * p + 1.

(** Trial division, to decide primality of concrete numbers. *)
Fixpoint no_divisor (fuel : nat) (d p : Z) : bool :=
  match fuel with
  | O => true
  | S fuel' => negb (p mod d =? 0) && no_divisor fuel' (d + 1) p
  end.

Definition is_prime (p : Z) : bool :=
  (1 <? p) && no_divisor (Z.to_nat (p - 2)) 2 p.

(** Products of bounds, one factor at a time. *)
Ltac mono :=
  solve [ apply Z.mul_le_mono_nonneg_l; lia
        | apply Z.mul_le_mono_nonneg_r; lia
        | apply Z.mul_le_mono_nonneg; lia ].

(** ** The integer roots of the quadratic *)

Lemma roots_sound N k x mu :
  k <> 0 -> In (x, mu) (Sage.roots N k) -> mu = 1 /\ N = x * (k * x + 1).
Proof.
  intros Hk. unfold Sage.roots.
  destruct (Z.eqb_spec k 0) as [|_]; [contradiction|].
  destruct (_ <? 0); [intros []|].
  destruct (negb _); [intros []|].
  intros H. apply filter_In in H. destruct H as [Hin Hroot].
  simpl in Hroot. split; [|lia].
  destruct (_ =? _) in Hin; simpl in Hin;
    repeat (destruct Hin as [Hin|Hin]; [congruence|]); contradiction.
Qed.

Lemma sqrt_square_abs z : Z.sqrt (z * z) = Z.abs z.
Proof.
  rewrite <- (Z.abs_square z). apply Z.sqrt_square. apply Z.abs_nonneg.
Qed.

Lemma roots_complete N k x :
  k <> 0 -> N = x * (k * x + 1) -> In (x, 1) (Sage.roots N k).
Proof.
  intros Hk HN. unfold Sage.roots.
  destruct (Z.eqb_spec k 0) as [|_]; [contradiction|].
  assert (HD : 1 + 4 * k * N = (2 * k * x + 1) * (2 * k * x + 1)) by (subst N; ring).
  rewrite HD, sqrt_square_abs.
  destruct (Z.ltb_spec ((2 * k * x + 1) * (2 * k * x + 1)) 0) as [Hneg|_]; [nia|].
  replace (Z.abs (2 * k * x + 1) * Z.abs (2 * k * x + 1))
    with ((2 * k * x + 1) * (2 * k * x + 1)) by (rewrite <- Z.abs_square; ring).
  rewrite Z.eqb_refl. cbn [negb].
  apply filter_In. split.
  2:{ simpl. subst N. apply Z.eqb_eq. ring. }
  assert (Hx : (-1 - Z.abs (2 * k * x + 1)) / (2 * k) = x
            \/ (-1 + Z.abs (2 * k * x + 1)) / (2 * k) = x).
  { destruct (Z.le_gt_cases 0 (2 * k * x + 1)) as [Hs|Hs].
    - right. rewrite Z.abs_eq by lia.
      replace (-1 + (2 * k * x + 1)) with (x * (2 * k)) by ring.
      apply Z.div_mul. lia.
    - left. rewrite Z.abs_neq by lia.
      replace (-1 - - (2 * k * x + 1)) with (x * (2 * k)) by ring.
      apply Z.div_mul. lia. }
  set (a := (-1 - _) / _) in *. set (b := (-1 + _) / _) in *.
  assert (Hm : Z.min a b = x \/ Z.max a b = x) by lia.
  destruct (Z.eqb_spec (Z.min a b) (Z.max a b)) as [Heq|Hne]; simpl.
  - left. f_equal. lia.
  - destruct Hm as [Hm|Hm]; [right; left|left]; f_equal; exact Hm.
Qed.

Lemma root_unique N k x y :
  2 <= k -> N = x * (k * x + 1) -> N = y * (k * y + 1) -> x = y.
Proof.
  intros Hk Hx Hy.
  assert (H : (x - y) * (k * (x + y) + 1) = 0) by lia.
  apply Z.mul_eq_0 in H. destruct H as [H|H]; [lia|].
  exfalso. assert (Hd : (k | 1)).
  { exists (- (x + y)). lia. }
  apply Z.divide_1_r_nonneg in Hd; lia.
Qed.

Lemma roots_length N k : 2 <= k -> (length (Sage.roots N k) <= 1)%nat.
Proof.
  intros Hk.
  destruct (Sage.roots N k) as [|[x mx] [|[y my] l]] eqn:E; simpl; try lia.
  exfalso.
  assert (Hx : In (x, mx) (Sage.roots N k)) by (rewrite E; simpl; auto).
  assert (Hy : In (y, my) (Sage.roots N k)) by (rewrite E; simpl; auto).
  apply roots_sound in Hx, Hy; try lia.
  destruct Hx as [-> Hx], Hy as [-> Hy].
  pose proof (root_unique N k x y Hk Hx Hy) as ->.
  revert E. unfold Sage.roots.
  destruct (k =? 0); [discriminate|].
  destruct (_ <? 0); [discriminate|].
  destruct (negb _); [discriminate|].
  set (lo := Z.min _ _). set (hi := Z.max _ _).
  destruct (Z.eqb_spec lo hi) as [Heq|Hne]; simpl.
  - destruct (_ =? 0); discriminate.
  - repeat match goal with
           | |- context [if ?c then _ else _] => destruct c
           end; try discriminate.
    intros H. injection H as H1 H2 _. congruence.
Qed.

Lemma roots_root N k x :
  2 <= k -> N = x * (k * x + 1) -> Sage.roots N k = [(x, 1)].
Proof.
  intros Hk HN.
  pose proof (roots_complete N k x ltac:(lia) HN) as Hin.
  pose proof (roots_length N k Hk) as Hlen.
  destruct (Sage.roots N k) as [|a [|b l]]; simpl in *.
  - contradiction.
  - destruct Hin as [->|[]]. reflexivity.
  - lia.
Qed.

Lemma roots_none N k :
  k <> 0 -> (forall x, N <> x * (k * x + 1)) -> Sage.roots N k = [].
Proof.
  intros Hk Hno.
  destruct (Sage.roots N k) as [|[x mu] l] eqn:E; [reflexivity|].
  exfalso. apply (Hno x).
  apply (roots_sound N k x mu Hk). rewrite E. simpl. auto.
Qed.

Lemma roots_cons N k x mu l :
  2 <= k -> Sage.roots N k = (x, mu) :: l ->
  mu = 1 /\ l = [] /\ N = x * (k * x + 1).
Proof.
  intros Hk E.
  assert (Hin : In (x, mu) (Sage.roots N k)) by (rewrite E; simpl; auto).
  apply roots_sound in Hin; [|lia]. destruct Hin as [-> HN].
  pose proof (roots_length N k Hk) as Hlen. rewrite E in Hlen.
  destruct l; simpl in Hlen; [auto|lia].
Qed.

(** ** The loop *)

Lemma search_S fuel n e k :
  search (S fuel) n e k =
  match Sage.roots (n * e) k with
  | [] => option_map (log_turn k) (search fuel n e (k + 2))
  | r => Some (LoopExit r (k + 2) [k])
  end.
Proof. simpl. destruct (Sage.roots (n * e) k); reflexivity. Qed.

(** The values of [k] over the turns that start at [k]. *)
Lemma turns_cons k (len : nat) :
  k :: map (fun i => k + 2 + 2 * Z.of_nat i) (seq 0 len) =
  map (fun i => k + 2 * Z.of_nat i) (seq 0 (S len)).
Proof.
  change (seq 0 (S len)) with (0%nat :: seq 1 len).
  rewrite <- seq_shift, map_cons, map_map. f_equal; [simpl; lia|].
  apply map_ext. intros i. lia.
Qed.

Lemma search_mono fuel fuel' n e k x :
  (fuel <= fuel')%nat -> search fuel n e k = Some x -> search fuel' n e k = Some x.
Proof.
  revert fuel' k x. induction fuel as [|fuel IH]; intros fuel' k x Hle H.
  - discriminate.
  - destruct fuel' as [|fuel']; [lia|].
    rewrite search_S in *.
    destruct (Sage.roots (n * e) k); [|exact H].
    destruct (search fuel n e (k + 2)) as [y|] eqn:E; [|discriminate].
    rewrite (IH fuel' (k + 2) y); [exact H|lia|exact E].
Qed.

Lemma search_exit fuel n e k x :
  search fuel n e k = Some x ->
  exists j : nat,
    (j < fuel)%nat /\
    tested x = map (fun i => k + 2 * Z.of_nat i) (seq 0 (S j)) /\
    exit_k x = k + 2 * Z.of_nat j + 2 /\
    exit_r x = Sage.roots (n * e) (k + 2 * Z.of_nat j) /\
    exit_r x <> [] /\
    forall i : nat, (i < j)%nat -> Sage.roots (n * e) (k + 2 * Z.of_nat i) = [].
Proof.
  revert k x. induction fuel as [|fuel IH]; intros k x H; [discriminate|].
  rewrite search_S in H.
  destruct (Sage.roots (n * e) k) as [|a l] eqn:E.
  - destruct (search fuel n e (k + 2)) as [y|] eqn:Ey; [|discriminate].
    injection H as <-.
    destruct (IH _ _ Ey) as (j & Hj & Ht & Hk & Hr & Hne & Hfirst).
    exists (S j). simpl tested. simpl exit_k. simpl exit_r.
    repeat split.
    + lia.
    + rewrite Ht. apply turns_cons.
    + lia.
    + rewrite Hr. f_equal. lia.
    + exact Hne.
    + intros [|i] Hi.
      * simpl. rewrite Z.add_0_r. exact E.
      * rewrite <- (Hfirst i) by lia. f_equal. lia.
  - injection H as <-. exists 0%nat. simpl.
    repeat split; try lia.
    + f_equal. lia.
    + rewrite Z.add_0_r. symmetry. exact E.
    + discriminate.
Qed.

Lemma search_found fuel n e k (j : nat) :
  (j < fuel)%nat ->
  (forall i : nat, (i < j)%nat -> Sage.roots (n * e) (k + 2 * Z.of_nat i) = []) ->
  Sage.roots (n * e) (k + 2 * Z.of_nat j) <> [] ->
  search fuel n e k =
  Some (LoopExit (Sage.roots (n * e) (k + 2 * Z.of_nat j))
                 (k + 2 * Z.of_nat j + 2)
                 (map (fun i => k + 2 * Z.of_nat i) (seq 0 (S j)))).
Proof.
  revert fuel k. induction j as [|j IH]; intros fuel k Hfuel Hfirst Hroot;
    (destruct fuel as [|fuel]; [lia|]); rewrite search_S.
  - simpl Z.of_nat in *. rewrite Z.mul_0_r, !Z.add_0_r in *.
    destruct (Sage.roots (n * e) k); [contradiction|].
    simpl. rewrite Z.add_0_r. reflexivity.
  - pose proof (Hfirst 0%nat ltac:(lia)) as H0.
    simpl Z.of_nat in H0. rewrite Z.mul_0_r, Z.add_0_r in H0. rewrite H0.
    rewrite (IH fuel (k + 2)).
    + unfold option_map, log_turn. cbn [exit_r exit_k tested].
      rewrite turns_cons.
      replace (k + 2 + 2 * Z.of_nat j) with (k + 2 * Z.of_nat (S j)) by lia.
      reflexivity.
    + lia.
    + intros i Hi. rewrite <- (Hfirst (S i)) by lia. f_equal. lia.
    + replace (k + 2 + 2 * Z.of_nat j) with (k + 2 * Z.of_nat (S j)) by lia.
      exact Hroot.
Qed.

Lemma search_halts fuel n e k (j : nat) :
  (j < fuel)%nat ->
  Sage.roots (n * e) (k + 2 * Z.of_nat j) <> [] ->
  search fuel n e k <> None.
Proof.
  revert k j. induction fuel as [|fuel IH]; intros k j Hj Hroot; [lia|].
  rewrite search_S.
  destruct (Sage.roots (n * e) k) eqn:E; [|discriminate].
  destruct j as [|j].
  - simpl in Hroot. rewrite Z.add_0_r in Hroot. contradiction.
  - specialize (IH (k + 2) j ltac:(lia)).
    destruct (search fuel n e (k + 2)); [discriminate|].
    exfalso. apply IH; [|reflexivity].
    replace (k + 2 + 2 * Z.of_nat j) with (k + 2 * Z.of_nat (S j)) by lia.
    exact Hroot.
Qed.

Lemma search_loops fuel n e k :
  (forall i : nat, Sage.roots (n * e) (k + 2 * Z.of_nat i) = []) ->
  search fuel n e k = None.
Proof.
  intros Hno. destruct (search fuel n e k) as [x|] eqn:E; [|reflexivity].
  destruct (search_exit _ _ _ _ _ E) as (j & _ & _ & _ & Hr & Hne & _).
  rewrite Hno in Hr. contradiction.
Qed.

(** ** Arithmetic of the weak keys *)

Lemma prime_odd p : Z.prime p -> p <> 2 -> Z.odd p = true.
Proof.
  intros [Hp Hdiv] Hne.
  destruct (Z.odd p) eqn:E; [reflexivity|exfalso].
  rewrite <- Z.negb_even in E. apply negb_false_iff in E.
  apply Z.even_spec in E. destruct E as [c Hc].
  apply (Hdiv 2); [lia|]. exists c. lia.
Qed.

(** The multiplier of a weak key: [q * e = K * p + 1] with [K = (q*e - 1)/p]. *)
Lemma weak_key_relation p q e :
  weak_key p q e -> weak_relation p q e ((q * e - 1) / p).
Proof.
  intros [Hp _ Hr Hinv _]. unfold weak_relation.
  pose proof (Z.div_mod (q * e) p ltac:(lia)) as Hdm. rewrite Hinv in Hdm.
  replace (q * e - 1) with ((q * e / p) * p) by lia.
  rewrite Z.div_mul by lia. lia.
Qed.

Lemma weak_key_e_odd p q e : weak_key p q e -> Z.odd e = true.
Proof.
  intros [Hp Hq Hr _ He].
  pose proof (Z.prime_ge_2 _ Hq).
  pose proof (prime_odd p Hp ltac:(lia)) as Hodd.
  destruct (Z.odd e) eqn:E; [reflexivity|exfalso].
  rewrite <- Z.negb_even in E. apply negb_false_iff in E.
  apply Z.even_spec in E. destruct E as [c Hc].
  apply Z.odd_spec in Hodd. destruct Hodd as [c' Hc'].
  assert (H2 : (2 | Z.gcd e ((p - 1) * (q - 1)))).
  { apply Z.gcd_greatest.
    - exists c. lia.
    - exists (c' * (q - 1)). rewrite Hc'. ring. }
  rewrite He in H2. apply Z.divide_1_r_nonneg in H2; lia.
Qed.

(** When [p] divides the root: [x = t * p], and only [t = 1] fits. *)
Lemma root_multiple_of_p p k K t :
  3 <= p -> 2 <= k -> K <= p - 2 ->
  t * (k * (t * p) + 1) = K * p + 1 -> t = 1.
Proof.
  intros Hp Hk HK H.
  destruct (Z.eq_dec t 1) as [|Hne]; [assumption|exfalso].
  assert (Hd : (p | t - 1)) by (exists (K - k * (t * t)); lia).
  apply Z.absle_divide in Hd; [|lia].
  rewrite (Z.abs_eq p) in Hd by lia.
  set (a := Z.abs t).
  assert (Ha : p - 1 <= a) by lia.
  assert (HT : t * t = a * a) by (unfold a; rewrite Z.abs_square; reflexivity).
  assert (H1 : (p - 1) * a <= a * a) by mono.
  assert (H2 : (p - 1) * (p - 1) <= (p - 1) * a) by mono.
  assert (H3 : p * ((p - 1) * a) <= p * (a * a)) by mono.
  assert (H4 : p * ((p - 1) * (p - 1)) <= p * (a * a)) by mono.
  assert (H5 : 2 * a <= (p - 1) * a) by mono.
  assert (H6 : p * (2 * a) <= p * ((p - 1) * a)) by mono.
  assert (H7 : 3 * (2 * a) <= p * (2 * a)) by mono.
  assert (H8 : p * (2 * (p - 1)) <= p * ((p - 1) * (p - 1))).
  { apply Z.mul_le_mono_nonneg_l; [lia|].
    apply Z.mul_le_mono_nonneg_r; lia. }
  assert (H9 : 3 * p <= p * p) by mono.
  assert (H10 : 2 * (p * (a * a)) <= k * (p * (a * a))).
  { apply Z.mul_le_mono_nonneg_r; [|lia]. apply Z.mul_nonneg_nonneg; [lia|].
    apply Z.square_nonneg. }
  assert (H11 : k * (p * (a * a)) = K * p + 1 - t).
  { rewrite <- HT. lia. }
  assert (H12 : K * p <= (p - 2) * p) by mono.
  lia.
Qed.

(** When [p] divides the cofactor [k*x + 1 = s * p] of a root found before
    [K]: then [s = p - k] and [s*s = k*K + 1]. *)
Lemma cofactor_multiple_of_p p k K x s :
  3 <= p -> 2 <= k < K -> K <= p - 2 ->
  x * s = K * p + 1 -> k * x + 1 = s * p ->
  s = p - k /\ k < s /\ p < x.
Proof.
  intros Hp Hk HK H1 Hs.
  assert (H2 : p * (s * s - k * K) = s + k).
  { assert (H : (s * p - 1) * s = k * (K * p + 1)).
    { rewrite <- H1. replace (s * p - 1) with (k * x) by lia. ring. }
    lia. }
  remember (s * s - k * K) as j eqn:Hj.
  assert (HkK : k * K <= (p - 2) * (p - 2)) by mono.
  assert (Hj1 : j = 1).
  { destruct (Z.lt_trichotomy j 1) as [Hlt|[Hone|Hgt]]; [exfalso| assumption |exfalso].
    - destruct (Z.eq_dec j 0) as [Hz|Hnz].
      + assert (Hd : (k | 1)) by (exists (- (x + p)); lia).
        apply Z.divide_1_r_nonneg in Hd; lia.
      + assert (Hpj : p * j <= p * (-1)) by mono.
        assert (Hss : p * p <= (- s) * (- s)) by mono.
        lia.
    - assert (Hpj : p * 2 <= p * j) by mono.
      assert (Hsp : p + 2 <= s) by lia.
      assert (Hjs : j < s).
      { assert (3 * j <= p * j) by mono. lia. }
      assert (Hss : (p + 2) * s <= s * s) by mono.
      assert (Hps : p * (p + 2) <= p * s) by mono.
      lia. }
  subst j. rewrite Hj1 in H2.
  assert (Hsk : k < s).
  { destruct (Z.lt_ge_cases k s) as [|Hle]; [assumption|exfalso].
    assert (s * s <= k * k) by mono.
    assert (k * k <= k * (K - 1)) by mono.
    lia. }
  repeat split; [lia|assumption|].
  apply (Z.mul_lt_mono_pos_l k); [lia|].
  assert ((k + 1) * p <= s * p) by mono.
  lia.
Qed.

(** Below the multiplier [K] of a weak key with [e < p] no quadratic has an
    integer root, whatever the parity of [k]. *)
Lemma no_early_root p q e K k x :
  Z.prime p -> Z.prime q -> 0 < q < p -> 0 < e < p ->
  weak_relation p q e K -> 2 <= k < K ->
  p * q * e <> x * (k * x + 1).
Proof.
  intros Hp Hq Hqp Hep Hrel Hk Hx. unfold weak_relation in Hrel.
  pose proof (Z.prime_ge_2 _ Hq) as Hq2.
  assert (HK : K <= p - 2).
  { assert (q * e <= (p - 1) * (p - 1)) by mono.
    apply (Z.mul_le_mono_pos_r _ _ p); lia. }
  assert (HN : x * (k * x + 1) = p * (K * p + 1)) by (rewrite <- Hrel; lia).
  assert (Hdiv : (p | x * (k * x + 1))) by (exists (K * p + 1); lia).
  apply (Z.divide_prime_mul _ _ _ Hp) in Hdiv. destruct Hdiv as [[t Ht]|[s Hs]].
  - subst x.
    assert (H1 : t * (k * (t * p) + 1) = K * p + 1).
    { apply (Z.mul_cancel_r _ _ p); lia. }
    pose proof (root_multiple_of_p p k K t ltac:(lia) ltac:(lia) HK H1) as ->.
    assert (p * (K - k) = 0) by lia.
    assert (K - k = 0) by (apply (Z.mul_eq_0_r p); lia). lia.
  - assert (H1 : x * s = K * p + 1).
    { apply (Z.mul_cancel_r _ _ p); [lia|]. rewrite Hs in HN. lia. }
    destruct (cofactor_multiple_of_p p k K x s ltac:(lia) Hk HK H1 Hs)
      as (Hsp & Hks & Hpx).
    assert (Hdq : (q | x * s)) by (exists e; lia).
    apply (Z.divide_prime_mul _ _ _ Hq) in Hdq. destruct Hdq as [[a Ha]|[a Ha]].
    + assert (Hae : a * s = e).
      { apply (Z.mul_cancel_r _ _ q); [lia|]. rewrite Ha in H1. lia. }
      assert (H2a : 2 <= a).
      { destruct (Z.lt_ge_cases a 2) as [Hlt|]; [exfalso|assumption].
        assert (a * q <= 1 * q) by mono. lia. }
      assert (2 * s <= a * s) by mono.
      lia.
    + assert (Hae : x * a = e).
      { apply (Z.mul_cancel_r _ _ q); [lia|]. rewrite Ha in H1. lia. }
      assert (H1a : 1 <= a).
      { destruct (Z.lt_ge_cases a 1) as [Hlt|]; [exfalso|assumption].
        assert (a * q <= 0 * q) by mono. lia. }
      assert (x * 1 <= x * a) by mono.
      lia.
Qed.

(** ** Trial division *)

Lemma no_divisor_sound fuel d p :
  no_divisor fuel d p = true ->
  forall n, d <= n < d + Z.of_nat fuel -> p mod n <> 0.
Proof.
  revert d. induction fuel as [|fuel IH]; intros d H n Hn; [lia|].
  simpl in H. apply andb_true_iff in H. destruct H as [Hd Hrest].
  destruct (Z.eq_dec n d) as [->|Hne].
  - apply negb_true_iff, Z.eqb_neq in Hd. exact Hd.
  - apply (IH (d + 1) Hrest). lia.
Qed.

Lemma is_prime_sound p : is_prime p = true -> Z.prime p.
Proof.
  unfold is_prime. intros H. apply andb_true_iff in H. destruct H as [H1 H2].
  apply Z.ltb_lt in H1. split; [exact H1|].
  intros n Hn Hdiv.
  apply (no_divisor_sound _ _ _ H2 n); [lia|].
  apply Z.mod0_divide. exact Hdiv.
Qed.

(** ** The rational steps *)

Lemma Qred_inject z : Qred (inject_Z z) = inject_Z z.
Proof.
  unfold Qred, inject_Z.
  pose proof (Z.ggcd_gcd z 1) as Hg.
  pose proof (Z.ggcd_correct_divisors z 1) as Hd.
  destruct (Z.ggcd z (Zpos 1)) as [g [a b]]. simpl in *.
  rewrite Z.gcd_1_r in Hg. subst g. destruct Hd as [Ha Hb].
  f_equal; [lia|]. replace b with 1%Z by lia. reflexivity.
Qed.

Lemma Qred_integer x z : (x == inject_Z z)%Q -> Qred x = inject_Z z.
Proof.
  intros H. rewrite (Qred_complete _ _ H). apply Qred_inject.
Qed.

Lemma div_exact p q : p <> 0 -> Sage.div (p * q) p = Done (inject_Z q).
Proof.
  intros Hp. unfold Sage.div.
  destruct (Z.eqb_spec p 0) as [|_]; [contradiction|].
  f_equal. apply Qred_integer.
  rewrite inject_Z_mult. field.
  intros H0. apply Hp. apply (proj1 (inject_Z_injective p 0)) . exact H0.
Qed.

Lemma modulus_integer p q :
  Qred (inject_Z (p - 1) * (inject_Z q - 1))%Q = inject_Z ((p - 1) * (q - 1)).
Proof.
  apply Qred_integer.
  rewrite inject_Z_mult. unfold Z.sub at 3. rewrite inject_Z_plus. 
  reflexivity.
Qed.

Lemma Integer_of_Rational_inject z :
  Sage.Integer_of_Rational (inject_Z z) = Done z.
Proof.
  unfold Sage.Integer_of_Rational. rewrite Qred_inject. reflexivity.
Qed.

Lemma inverse_mod_integer a m :
  Sage.inverse_mod a (inject_Z m) = Sage.Integer_inverse_mod a m.
Proof.
  unfold Sage.inverse_mod. rewrite Integer_of_Rational_inject. reflexivity.
Qed.

Lemma Integer_inverse_mod_coprime a m :
  2 <= m -> Z.coprime a m ->
  Sage.Integer_inverse_mod a m = Done (Z.invmod a m) /\
  0 <= Z.invmod a m < m /\ (a * Z.invmod a m) mod m = 1.
Proof.
  intros Hm Hc. unfold Sage.Integer_inverse_mod.
  rewrite (Z.abs_eq m) by lia.
  destruct (Z.eqb_spec m 1) as [|_]; [lia|].
  unfold Z.coprime in Hc. rewrite Hc. simpl.
  repeat split.
  - rewrite <- Z.mod_invmod. apply Z.mod_pos_bound. lia.
  - rewrite <- Z.mod_invmod. apply Z.mod_pos_bound. lia.
  - rewrite Z.mul_comm. apply Z.invmod_coprime; assumption.
Qed.

(** ** Decryption *)

Lemma fermat_multiple p a (j : Z) :
  Z.prime p -> 0 <= j -> a ^ (1 + j * (p - 1)) mod p = a mod p.
Proof.
  intros Hp Hj. pose proof (Z.prime_ge_2 _ Hp) as Hp2.
  pattern j. apply natlike_ind; [| |exact Hj].
  - rewrite Z.mul_0_l, Z.add_0_r, Z.pow_1_r. reflexivity.
  - intros i Hi IH.
    replace (1 + Z.succ i * (p - 1)) with ((1 + i * (p - 1)) + (p - 1)) by lia.
    rewrite Z.pow_add_r by nia.
    rewrite <- Z.mul_mod_idemp_l by lia. rewrite IH.
    rewrite Z.mul_mod_idemp_l by lia.
    rewrite <- (Z.pow_1_r a) at 1. rewrite <- Z.pow_add_r by lia.
    replace (1 + (p - 1)) with p by lia.
    apply Z.fermat. exact Hp.
Qed.

Lemma fermat_exponent p a t :
  Z.prime p -> 1 <= t -> (p - 1 | t - 1) -> a ^ t mod p = a mod p.
Proof.
  intros Hp Ht [j Hj]. pose proof (Z.prime_ge_2 _ Hp) as Hp2.
  replace t with (1 + j * (p - 1)) by lia.
  apply fermat_multiple; [exact Hp|]. nia.
Qed.

Lemma rsa_exponent p q m t :
  Z.prime p -> Z.prime q -> p <> q -> 1 <= t ->
  ((p - 1) * (q - 1) | t - 1) ->
  m ^ t mod (p * q) = m mod (p * q).
Proof.
  intros Hp Hq Hne Ht [j Hj].
  pose proof (Z.prime_ge_2 _ Hp) as Hp2. pose proof (Z.prime_ge_2 _ Hq) as Hq2.
  assert (H1 : (p | m ^ t - m)).
  { apply Z.mod_divide; [lia|].
    rewrite Zminus_mod, (fermat_exponent p m t Hp Ht).
    - rewrite Z.sub_diag. apply Z.mod_0_l. lia.
    - exists (j * (q - 1)). lia. }
  assert (H2 : (q | m ^ t - m)).
  { apply Z.mod_divide; [lia|].
    rewrite Zminus_mod, (fermat_exponent q m t Hq Ht).
    - rewrite Z.sub_diag. apply Z.mod_0_l. lia.
    - exists (j * (p - 1)). lia. }
  assert (Hcop : Z.gcd q p = 1).
  { apply Z.coprime_prime_l; [exact Hq|].
    intros Hd. apply Hne. symmetry. apply Z.divide_prime_prime; assumption. }
  destruct H1 as [c Hc].
  assert (H3 : (q | c)).
  { apply (Z.gauss q p c); [|exact Hcop]. rewrite Z.mul_comm, <- Hc. exact H2. }
  destruct H3 as [c' Hc'].
  assert (Hmod : (m ^ t - m) mod (p * q) = 0).
  { apply Z.mod_divide; [nia|]. exists c'. lia. }
  rewrite <- (Z.sub_add m (m ^ t)).
  rewrite <- Z.add_mod_idemp_l by nia. rewrite Hmod. reflexivity.
Qed.

Lemma power_mod_rsa p q e d m :
  Z.prime p -> Z.prime q -> p <> q -> 0 < e -> 0 <= d ->
  (e * d) mod ((p - 1) * (q - 1)) = 1 ->
  0 <= m < p * q ->
  Sage.power_mod (m ^ e mod (p * q)) d (p * q) = Done m.
Proof.
  intros Hp Hq Hne He Hd Hed Hm.
  pose proof (Z.prime_ge_2 _ Hp) as Hp2. pose proof (Z.prime_ge_2 _ Hq) as Hq2.
  assert (Hn : 4 <= p * q) by nia.
  assert (Hphi : 1 <= (p - 1) * (q - 1)) by nia.
  assert (Hd0 : d <> 0).
  { intros ->. rewrite Z.mul_0_r, Z.mod_0_l in Hed by lia. discriminate. }
  unfold Sage.power_mod.
  destruct (Z.eqb_spec (p * q) 0) as [|_]; [lia|].
  destruct (Z.eqb_spec (p * q) 1) as [|_]; [lia|].
  destruct (Z.ltb_spec d 0) as [|_]; [lia|].
  destruct (Z.eqb_spec d 0) as [|_]; [contradiction|].
  f_equal.
  rewrite Z.mod_pow_l. rewrite <- Z.pow_mul_r by lia.
  rewrite rsa_exponent; try assumption.
  - apply Z.mod_small. exact Hm.
  - nia.
  - apply Z.mod_divide; [lia|].
    assert (Hphi2 : 1 < (p - 1) * (q - 1)).
    { destruct (Z.eq_dec ((p - 1) * (q - 1)) 1) as [E|]; [|lia].
      rewrite E, Z.mod_1_r in Hed. discriminate. }
    rewrite Zminus_mod, Hed, Z.mod_1_l by exact Hphi2.
    apply Z.mod_0_l. lia.
Qed.

(** ** The cell on a weak key *)

Section WeakKey.

Variables p q e : Z.
Hypothesis Hwk : weak_key p q e.
Hypothesis Hodd : Z.odd q = true.
Hypothesis He : 0 < e < p.

(** The multiplier [K = (q*e - 1)/p] is even and at least two. *)
Lemma weak_key_multiplier :
  2 <= (q * e - 1) / p /\ Z.even ((q * e - 1) / p) = true.
Proof.
  pose proof (weak_key_relation _ _ _ Hwk) as Hrel.
  pose proof (weak_key_e_odd _ _ _ Hwk) as Heodd.
  destruct Hwk as [Hp Hq Hr Hinv Hcop].
  pose proof (Z.prime_ge_2 _ Hq) as Hq2.
  pose proof (prime_odd p Hp ltac:(lia)) as Hpodd.
  unfold weak_relation in Hrel. set (K := (q * e - 1) / p) in *.
  assert (HKeven : Z.even K = true).
  { assert (Ho : Z.odd (q * e) = true)
      by (rewrite Z.odd_mul, Hodd, Heodd; reflexivity).
    rewrite Hrel, Z.add_comm, Z.odd_add, Z.odd_mul, Hpodd, andb_true_r in Ho.
    simpl in Ho. rewrite <- Z.negb_even in Ho.
    destruct (Z.even K); [reflexivity|discriminate]. }
  split; [|exact HKeven].
  assert (HKpos : 0 < K).
  { assert (2 * 1 <= q * e) by mono.
    destruct (Z.lt_ge_cases 0 K) as [|Hle]; [assumption|exfalso].
    assert (K * p <= 0 * p) by mono. lia. }
  destruct (Z.eq_dec K 1) as [E|]; [|lia]. rewrite E in HKeven. discriminate.
Qed.

(** The search leaves at the multiplier, with the prime [p] as its only
    root, after [K/2] turns. *)
Lemma weak_key_search fuel :
  (Z.to_nat ((q * e - 1) / p / 2) <= fuel)%nat ->
  search fuel (p * q) e 2 =
  Some (LoopExit [(p, 1)] ((q * e - 1) / p + 2)
          (map (fun i => 2 + 2 * Z.of_nat i)
               (seq 0 (Z.to_nat ((q * e - 1) / p / 2))))).
Proof.
  intros Hfuel.
  pose proof (weak_key_relation _ _ _ Hwk) as Hrel.
  destruct weak_key_multiplier as [HK2 HKeven].
  destruct Hwk as [Hp Hq Hr Hinv Hcop].
  unfold weak_relation in Hrel. set (K := (q * e - 1) / p) in *.
  apply Z.even_spec in HKeven. destruct HKeven as [h Hh].
  assert (Hhalf : K / 2 = h) by (rewrite Hh, Z.mul_comm; apply Z.div_mul; lia).
  rewrite Hhalf in *.
  assert (Hroot : Sage.roots (p * q * e) K = [(p, 1)]).
  { apply roots_root; [exact HK2|]. rewrite <- Hrel. ring. }
  destruct (Z.to_nat h) as [|j] eqn:Ej; [lia|].
  assert (HKj : K = 2 + 2 * Z.of_nat j) by lia.
  rewrite (search_found fuel (p * q) e 2 j).
  - rewrite <- HKj, Hroot. reflexivity.
  - lia.
  - intros i Hi. apply roots_none; [lia|].
    intros x. apply (no_early_root p q e K); try assumption; lia.
  - rewrite <- HKj, Hroot. discriminate.
Qed.

(** The whole cell: the factors, the private exponent and the plaintext. *)
Lemma weak_key_recover m fuel :
  0 <= m < p * q ->
  (Z.to_nat ((q * e - 1) / p / 2) <= fuel)%nat ->
  recover fuel (p * q) e (m ^ e mod (p * q)) =
  Done (Secrets p (inject_Z q) (Z.invmod e ((p - 1) * (q - 1))) m).
Proof.
  intros Hm Hfuel.
  unfold recover. rewrite (weak_key_search fuel Hfuel). cbn [exit_r].
  destruct Hwk as [Hp Hq Hr Hinv Hcop].
  pose proof (Z.prime_ge_2 _ Hq) as Hq2.
  rewrite div_exact by lia. cbn [bind].
  rewrite modulus_integer, inverse_mod_integer.
  assert (Hphi : 2 * 1 <= (p - 1) * (q - 1)) by mono.
  destruct (Integer_inverse_mod_coprime e _ Hphi Hcop) as (Hinvmod & Hd & Hed).
  rewrite Hinvmod. cbn [bind].
  rewrite (power_mod_rsa p q e _ m); try assumption; try lia.
  reflexivity.
Qed.

End WeakKey.

(** ** The claims about the loop *)

Lemma turns_from_2 (len : nat) :
  map (fun i => 2 + 2 * Z.of_nat i) (seq 0 len) =
  map (fun i => 2 * Z.of_nat i) (seq 1 len).
Proof.
  rewrite <- seq_shift, map_map. apply map_ext. intros i. lia.
Qed.

Lemma doubles_sorted (a len : nat) :
  StronglySorted Z.lt (map (fun i => 2 * Z.of_nat i) (seq a len)).
Proof.
  revert a. induction len as [|len IH]; intros a; cbn [map seq]; constructor.
  - apply IH.
  - apply Forall_forall. intros k Hk. apply in_map_iff in Hk.
    destruct Hk as (i & <- & Hi). apply in_seq in Hi. lia.
Qed.

(** What the loop leaves with: one simple root, found at the last tested
    [k], and [k] already moved on by two. *)
Lemma search_exit_root fuel n e x :
  search fuel n e 2 = Some x ->
  exists p,
    exit_r x = [(p, 1)] /\
    exit_k x = last (tested x) 0 + 2 /\
    2 <= last (tested x) 0 /\
    n * e = p * (last (tested x) 0 * p + 1).
Proof.
  intros H.
  destruct (search_exit _ _ _ _ _ H) as (j & _ & Ht & Hk & Hr & Hne & _).
  assert (Hlast : last (tested x) 0 = 2 + 2 * Z.of_nat j).
  { rewrite Ht, seq_S, map_app. cbn [map]. rewrite last_last. lia. }
  destruct (exit_r x) as [|[p mu] l] eqn:E; [contradiction|].
  symmetry in Hr. apply roots_cons in Hr; [|lia].
  destruct Hr as (-> & -> & HN).
  exists p. rewrite Hlast. repeat split; (exact HN || lia).
Qed.

(** The roots of [12 - p*(k*p + 1)] for even [k]: there are none. *)
Lemma no_root_12 (i : nat) x : 4 * 3 <> x * ((2 + 2 * Z.of_nat i) * x + 1).
Proof.
  intros H.
  assert (Hd : (x | 12)) by (exists ((2 + 2 * Z.of_nat i) * x + 1); lia).
  apply Z.absle_divide in Hd; [|lia].
  assert (Hx : -12 <= x <= 12) by lia. clear Hd.
  assert (Hc : x = -12 \/ x = -11 \/ x = -10 \/ x = -9 \/ x = -8 \/ x = -7 \/
               x = -6 \/ x = -5 \/ x = -4 \/ x = -3 \/ x = -2 \/ x = -1 \/
               x = 0 \/ x = 1 \/ x = 2 \/ x = 3 \/ x = 4 \/ x = 5 \/ x = 6 \/
               x = 7 \/ x = 8 \/ x = 9 \/ x = 10 \/ x = 11 \/ x = 12) by lia.
  repeat (destruct Hc as [->|Hc]; [lia|]). subst x. lia.
Qed.

(** Claim C4 does not hold as stated.  The values of [k] are as the claim
    says, but the loop stops at the first [k] with any integer root, valid
    or not: on [(n, e) = (15, 7)] it leaves at [k = 2] with the root [7],
    which does not divide [n = 15], although [k = 4] has the root [5], which
    is positive and divides [n]. *)
Lemma search_stops_at_invalid_root :
  search 1 15 7 2 = Some (LoopExit [(7, 1)] 4 [2]) /\ 15 mod 7 <> 0 /\
  Sage.roots (15 * 7) 4 = [(5, 1)] /\ 0 < 5 /\ 15 mod 5 = 0.
Proof.
  split; [vm_compute; reflexivity|].
  split; [vm_compute; discriminate|].
  split; [vm_compute; reflexivity|].
  split; [lia|reflexivity].
Qed.

(** Claim C4, amended.  The loop tests exactly the even values
    [2, 4, 6, ...] of [k], one per turn and in this strictly increasing
    order, and it stops at the first of them whose quadratic has an integer
    root, whether or not this root is positive or divides [n]: the search
    leaves the loop within [fuel] turns if and only if some [2*j] with
    [j <= fuel] is the first even [k] with a root, and then it leaves with
    the root list of [2*j], with [k = 2*j + 2], having tested
    [2, 4, ..., 2*j]; all tested values are even and increasing. *)
Theorem search_first_root fuel n e x :
  (search fuel n e 2 = Some x <->
   exists j : nat,
     (1 <= j <= fuel)%nat /\
     (forall i : nat, (1 <= i < j)%nat ->
        Sage.roots (n * e) (2 * Z.of_nat i) = []) /\
     Sage.roots (n * e) (2 * Z.of_nat j) <> [] /\
     x = LoopExit (Sage.roots (n * e) (2 * Z.of_nat j)) (2 * Z.of_nat j + 2)
                  (map (fun i => 2 * Z.of_nat i) (seq 1 j))) /\
  (search fuel n e 2 = Some x ->
   Forall (fun k => Z.even k = true) (tested x) /\
   StronglySorted Z.lt (tested x)).
Proof.
  assert (Hto : search fuel n e 2 = Some x ->
    exists j : nat,
     (1 <= j <= fuel)%nat /\
     (forall i : nat, (1 <= i < j)%nat ->
        Sage.roots (n * e) (2 * Z.of_nat i) = []) /\
     Sage.roots (n * e) (2 * Z.of_nat j) <> [] /\
     x = LoopExit (Sage.roots (n * e) (2 * Z.of_nat j)) (2 * Z.of_nat j + 2)
                  (map (fun i => 2 * Z.of_nat i) (seq 1 j))).
  { intros H.
    destruct (search_exit _ _ _ _ _ H) as (j & Hj & Ht & Hk & Hr & Hne & Hfirst).
    rewrite turns_from_2 in Ht.
    replace (2 + 2 * Z.of_nat j) with (2 * Z.of_nat (S j)) in Hr, Hk by lia.
    exists (S j). repeat split.
    - lia.
    - lia.
    - intros [|i] Hi; [lia|]. rewrite <- (Hfirst i) by lia. f_equal. lia.
    - rewrite <- Hr. exact Hne.
    - destruct x as [r k t]. cbn [exit_r exit_k tested] in *.
      rewrite Hr, Ht. f_equal. lia. }
  split; [split; [exact Hto|]|].
  - intros (j & Hj & Hfirst & Hroot & ->).
    destruct j as [|j]; [lia|].
    rewrite (search_found fuel n e 2 j).
    + rewrite turns_from_2.
      replace (2 + 2 * Z.of_nat j) with (2 * Z.of_nat (S j)) by lia.
      reflexivity.
    + lia.
    + intros i Hi. rewrite <- (Hfirst (S i)) by lia. f_equal. lia.
    + replace (2 + 2 * Z.of_nat j) with (2 * Z.of_nat (S j)) by lia.
      exact Hroot.
  - intros H. destruct (Hto H) as (j & _ & _ & _ & ->). cbn [tested]. split.
    + apply Forall_forall. intros k Hk. apply in_map_iff in Hk.
      destruct Hk as (i & <- & _). rewrite Z.even_mul. reflexivity.
    + apply doubles_sorted.
Qed.

(** Claim C10.  [k += 2] runs once more after the call of [roots] that
    succeeds: at loop exit [k] is two more than the last tested value, and
    the root [p = r[0][0]] satisfies [n*e = p*((k-2)*p + 1)] for this exit
    value of [k].  It does not satisfy [n*e = p*(k*p + 1)]: the two
    right-hand sides differ by [2*p*p], which vanishes only for the root
    [p = 0] of the degenerate input [n*e = 0]. *)
Theorem search_exit_k fuel n e x :
  search fuel n e 2 = Some x ->
  exists p mu l,
    exit_r x = (p, mu) :: l /\
    exit_k x = last (tested x) 0 + 2 /\
    n * e = p * ((exit_k x - 2) * p + 1) /\
    (n * e <> 0 -> n * e <> p * (exit_k x * p + 1)).
Proof.
  intros H.
  destruct (search_exit_root _ _ _ _ H) as (p & Hr & Hk & _ & HN).
  exists p, 1, []. repeat split.
  - exact Hr.
  - exact Hk.
  - rewrite Hk, Z.add_simpl_r. exact HN.
  - intros Hnz Heq. rewrite Hk in Heq.
    assert (Hp : 2 * (p * p) = 0) by lia.
    assert (p = 0) by nia. subst p. lia.
Qed.

(** On [(55, 9)]: exit with [k = 6], root [11] found at [k = 4]. *)
Lemma search_exit_k_witness :
  exists p mu l,
    exit_r (LoopExit [(11, 1)] 6 [2; 4]) = (p, mu) :: l /\
    exit_k (LoopExit [(11, 1)] 6 [2; 4]) = last (tested (LoopExit [(11, 1)] 6 [2; 4])) 0 + 2 /\
    55 * 9 = p * ((exit_k (LoopExit [(11, 1)] 6 [2; 4]) - 2) * p + 1) /\
    (55 * 9 <> 0 -> 55 * 9 <> p * (exit_k (LoopExit [(11, 1)] 6 [2; 4]) * p + 1)).
Proof.
  apply (search_exit_k 3 55 9). vm_compute. reflexivity.
Defined.

(** Claim C2 does not hold as stated: on [(n, e) = (7, 3)] the loop leaves
    after one turn with [p = 3], since [21 = 3*(2*3 + 1)], and [3] does not
    divide [n = 7]; on [(n, e) = (3, 5)] it leaves with the negative root
    [p = -3], since [15 = -3*(2*(-3) + 1)].  Nothing in the cell checks the
    root before it is used. *)
Lemma search_root_not_factor :
  search 1 7 3 2 = Some (LoopExit [(3, 1)] 4 [2]) /\ 7 mod 3 <> 0 /\
  search 1 3 5 2 = Some (LoopExit [(-3, 1)] 4 [2]) /\ ~ 0 < -3.
Proof.
  split; [vm_compute; reflexivity|].
  split; [vm_compute; discriminate|].
  split; [vm_compute; reflexivity|lia].
Qed.

(** Claim C2, amended.  Whenever the search leaves the loop, [r] holds
    exactly one root [p], of multiplicity one: an integer with
    [n*e = p*(k*p + 1)] for the [k] at which it was found (the last one
    tested), and therefore a divisor of [n*e].  That [p] is positive or
    divides [n] is not checked. *)
Theorem search_root fuel n e x :
  search fuel n e 2 = Some x ->
  exists p k,
    exit_r x = [(p, 1)] /\
    k = last (tested x) 0 /\
    n * e = p * (k * p + 1) /\
    (p | n * e).
Proof.
  intros H.
  destruct (search_exit_root _ _ _ _ H) as (p & Hr & _ & _ & HN).
  exists p, (last (tested x) 0). repeat split.
  - exact Hr.
  - exact HN.
  - exists (last (tested x) 0 * p + 1). lia.
Qed.

(** On [(55, 9)]: the root [11] at [k = 4]. *)
Lemma search_root_witness :
  exists p k,
    exit_r (LoopExit [(11, 1)] 6 [2; 4]) = [(p, 1)] /\
    k = last (tested (LoopExit [(11, 1)] 6 [2; 4])) 0 /\
    55 * 9 = p * (k * p + 1) /\
    (p | 55 * 9).
Proof.
  apply (search_root 3 55 9). vm_compute. reflexivity.
Defined.

(** Claim C3 does not hold as stated: on [(n, e) = (4, 3)] the loop is
    still running after any number of turns.  The source has no iteration
    ceiling and no failure for an exhausted search. *)
Lemma search_4_3_loops : ~ exists fuel, search fuel 4 3 2 <> None.
Proof.
  intros [fuel H]. apply H. apply search_loops. intros i.
  apply roots_none; [lia|]. intros x. apply no_root_12.
Qed.

(** Claim C3, amended.  The loop has no ceiling: it is left exactly when
    some even [k >= 2] gives [n*e = p*(k*p + 1)] an integer solution [p],
    and it runs forever otherwise. *)
Theorem search_halts_iff n e :
  (exists fuel, search fuel n e 2 <> None) <->
  (exists k x, 2 <= k /\ Z.even k = true /\ n * e = x * (k * x + 1)).
Proof.
  split.
  - intros [fuel H]. destruct (search fuel n e 2) as [y|] eqn:E; [|contradiction].
    destruct (search_exit _ _ _ _ _ E) as (j & _ & _ & _ & Hr & Hne & _).
    destruct (exit_r y) as [|[p mu] l] eqn:Er; [contradiction|].
    symmetry in Hr. apply roots_cons in Hr; [|lia].
    exists (2 + 2 * Z.of_nat j), p. repeat split.
    + lia.
    + rewrite Z.even_add, !Z.even_mul. reflexivity.
    + apply Hr.
  - intros (k & x & Hk & Heven & HN).
    apply Z.even_spec in Heven. destruct Heven as [h Hh].
    exists (Z.to_nat h). apply (search_halts _ _ _ _ (Z.to_nat (h - 1))); [lia|].
    replace (2 + 2 * Z.of_nat (Z.to_nat (h - 1))) with k by lia.
    rewrite (roots_root _ _ x Hk HN). discriminate.
Qed.

(** ** A quotient that is not an integer *)

Lemma inject_Z_nonzero p : p <> 0 -> ~ (inject_Z p == 0)%Q.
Proof.
  intros Hp H. apply Hp. apply (proj1 (inject_Z_injective p 0)). exact H.
Qed.

Lemma Qred_den_one x :
  Qden (Qred x) = 1%positive -> (x == inject_Z (Qnum (Qred x)))%Q.
Proof.
  intros H. rewrite <- (Qred_correct x) at 1.
  destruct (Qred x) as [a b]. simpl in *. subst b. reflexivity.
Qed.

Lemma quotient_not_integer n p z :
  p <> 0 -> n mod p <> 0 -> ~ (inject_Z n / inject_Z p == inject_Z z)%Q.
Proof.
  intros Hp Hn H. apply Hn.
  assert (E : (inject_Z n == inject_Z (z * p))%Q).
  { rewrite inject_Z_mult, <- H. field. apply inject_Z_nonzero. exact Hp. }
  apply (proj1 (inject_Z_injective _ _)) in E. rewrite E. apply Z.mod_mul. exact Hp.
Qed.

Lemma modulus_not_integer n p q z :
  p <> 0 -> n mod p <> 0 -> (q == inject_Z n / inject_Z p)%Q ->
  ~ (inject_Z (p - 1) * (q - 1) == inject_Z z)%Q.
Proof.
  intros Hp Hn Hq H. apply Hn.
  assert (E : (inject_Z ((p - 1) * (n - p)) == inject_Z (z * p))%Q).
  { rewrite !inject_Z_mult, <- H, Hq.
    unfold Z.sub. rewrite !inject_Z_plus, !inject_Z_opp.
    change (inject_Z 1) with 1%Q.
    field. apply inject_Z_nonzero. exact Hp. }
  apply (proj1 (inject_Z_injective _ _)) in E.
  assert (Hd : (p | (p - 1) * (n - p))) by (exists z; lia).
  apply Z.gauss in Hd.
  - apply Z.mod_divide; [exact Hp|].
    destruct Hd as [c Hc]. exists (c + 1). lia.
  - apply Z.bezout_1_gcd. exists 1, (-1). lia.
Qed.

Lemma recover_step fuel n e c x p mu l :
  search fuel n e 2 = Some x -> exit_r x = (p, mu) :: l ->
  recover fuel n e c =
  (q <- Sage.div n p ;;
   d <- Sage.inverse_mod e (Qred (inject_Z (p - 1) * (q - 1))%Q) ;;
   plaintext <- Sage.power_mod c d n ;;
   Done (Secrets p q d plaintext)).
Proof.
  intros Hs Hr. unfold recover. rewrite Hs, Hr. reflexivity.
Qed.

(** Claim C5 does not hold as stated: on [(n, e) = (7, 3)] the root is
    [p = 3] and [n mod p = 1], yet [q = n / p] raises nothing; it is the
    rational [7/3], the cell goes on to [(p-1) * (q-1) = 8/3], and the
    exception that ends the run is the [TypeError] of [inverse_mod]. *)
Lemma div_7_3_not_integer :
  search 1 7 3 2 = Some (LoopExit [(3, 1)] 4 [2]) /\
  7 mod 3 <> 0 /\
  Sage.div 7 3 = Done (7 # 3)%Q /\
  Qred (inject_Z (3 - 1) * ((7 # 3) - 1))%Q = (8 # 3)%Q /\
  Sage.inverse_mod 3 (8 # 3)%Q = Raise TypeError.
Proof.
  split; [vm_compute; reflexivity|].
  split; [vm_compute; discriminate|].
  repeat split; vm_compute; reflexivity.
Qed.

(** Claim C5, amended.  [q = n / p] is a division of rationals without
    any test of divisibility.  For the root [p] the loop left with: if
    [p = 0] the run ends in a [ZeroDivisionError]; if [p] divides [n] then
    [q] is the exact integer quotient; and if [n mod p <> 0] then [q] is a
    rational that is not an integer, the division raises nothing, and the
    run ends one line later in the [TypeError] that [inverse_mod] raises
    on the modulus [(p-1) * (q-1)], which is not an integer either. *)
Theorem div_not_checked fuel n e c x p mu l :
  search fuel n e 2 = Some x -> exit_r x = (p, mu) :: l ->
  (p = 0 -> recover fuel n e c = Raise ZeroDivisionError) /\
  (p <> 0 -> n mod p = 0 -> Sage.div n p = Done (inject_Z (n / p))) /\
  (p <> 0 -> n mod p <> 0 ->
   exists q, Sage.div n p = Done q /\ Qden q <> 1%positive /\
             recover fuel n e c = Raise TypeError).
Proof.
  intros Hs Hr. rewrite (recover_step _ _ _ _ _ _ _ _ Hs Hr).
  split; [|split].
  - intros ->. reflexivity.
  - intros Hp Hn. apply Z.mod_divide in Hn; [|exact Hp].
    destruct Hn as [c' ->]. rewrite Z.div_mul by exact Hp.
    rewrite Z.mul_comm. apply div_exact. exact Hp.
  - intros Hp Hn. unfold Sage.div.
    destruct (Z.eqb_spec p 0) as [|_]; [contradiction|].
    eexists. split; [reflexivity|]. split.
    + intros Hden. apply Qred_den_one in Hden.
      apply (quotient_not_integer n p _ Hp Hn Hden).
    + cbn [bind]. unfold Sage.inverse_mod, Sage.Integer_of_Rational.
      destruct (Pos.eqb_spec (Qden (Qred (Qred (inject_Z (p - 1) *
        (Qred (inject_Z n / inject_Z p) - 1))))) 1) as [Hden|_]; [|reflexivity].
      exfalso. apply Qred_den_one in Hden.
      apply (modulus_not_integer n p _ _ Hp Hn (Qred_correct _)
               (Qeq_trans _ _ _ (Qeq_sym _ _ (Qred_correct _)) Hden)).
Qed.

(** On [(n, e) = (7, 3)], root [p = 3]. *)
Lemma div_not_checked_witness :
  exists q, Sage.div 7 3 = Done q /\ Qden q <> 1%positive /\
            recover 1 7 3 1 = Raise TypeError.
Proof.
  apply (div_not_checked 1 7 3 1 (LoopExit [(3, 1)] 4 [2]) 3 1 []).
  - vm_compute. reflexivity.
  - reflexivity.
  - lia.
  - vm_compute. discriminate.
Defined.

(** ** Fuel *)

Lemma recover_fuel f1 f2 n e c :
  recover f1 n e c <> OutOfFuel -> (f1 <= f2)%nat ->
  recover f2 n e c = recover f1 n e c.
Proof.
  intros H Hle. unfold recover in *.
  destruct (search f1 n e 2) as [x|] eqn:E; [|contradiction].
  rewrite (search_mono _ _ _ _ _ _ Hle E). reflexivity.
Qed.

Lemma recover_outcome_unique f1 f2 n e c :
  recover f1 n e c <> OutOfFuel -> recover f2 n e c <> OutOfFuel ->
  recover f1 n e c = recover f2 n e c.
Proof.
  intros H1 H2.
  rewrite <- (recover_fuel f1 (Nat.max f1 f2)) by (try exact H1; lia).
  rewrite <- (recover_fuel f2 (Nat.max f1 f2)) by (try exact H2; lia).
  reflexivity.
Qed.

(** ** Runs of the cell over any answer of the library *)

Lemma roots_answer_unique N k r1 r2 :
  2 <= k -> roots_answer N k r1 -> roots_answer N k r2 -> r1 = r2.
Proof.
  intros Hk.
  assert (Hshape : forall r, roots_answer N k r ->
            r = [] \/ exists x, r = [(x, 1)] /\ N = x * (k * x + 1)).
  { intros r [Hnd Hin]. destruct r as [|[x mu] l]; [left; reflexivity|right].
    destruct (proj1 (Hin x mu) (or_introl eq_refl)) as [-> Hx].
    exists x. split; [|exact Hx]. f_equal.
    destruct l as [|[y nu] l]; [reflexivity|exfalso].
    destruct (proj1 (Hin y nu) (or_intror (or_introl eq_refl))) as [-> Hy].
    pose proof (root_unique N k x y Hk Hx Hy) as <-.
    inversion Hnd as [|a b Hnotin _]. apply Hnotin. left. reflexivity. }
  intros H1 H2.
  destruct (Hshape r1 H1) as [->|(x & -> & Hx)];
    destruct (Hshape r2 H2) as [->|(y & -> & Hy)].
  - reflexivity.
  - exfalso. destruct H1 as [_ Hin].
    apply (proj2 (Hin y 1) (conj eq_refl Hy)).
  - exfalso. destruct H2 as [_ Hin].
    apply (proj2 (Hin x 1) (conj eq_refl Hx)).
  - rewrite (root_unique N k x y Hk Hx Hy). reflexivity.
Qed.

Lemma roots_answer_computed N k : 2 <= k -> roots_answer N k (Sage.roots N k).
Proof.
  intros Hk. split.
  - pose proof (roots_length N k Hk) as Hlen.
    destruct (Sage.roots N k) as [|a [|b l]]; simpl in Hlen.
    + constructor.
    + constructor; [intros []|constructor].
    + lia.
  - intros x mu. split.
    + apply roots_sound. lia.
    + intros [-> HN]. apply roots_complete; [lia|exact HN].
Qed.

Lemma loop_runs_functional n e k r1 k1 r2 k2 :
  2 <= k -> loop_runs n e k r1 k1 -> loop_runs n e k r2 k2 ->
  r1 = r2 /\ k1 = k2.
Proof.
  intros Hk H1. revert r2 k2 Hk.
  induction H1 as [k r Hr Hne|k r k' Hr _ IH]; intros r2 k2 Hk H2.
  - inversion H2 as [k0 r0 Hr2 Hne2|k0 r0 k0' Hr2 _]; subst.
    + split; [|reflexivity]. apply (roots_answer_unique _ _ _ _ Hk Hr Hr2).
    + exfalso. apply Hne. apply (roots_answer_unique _ _ _ _ Hk Hr Hr2).
  - inversion H2 as [k0 r0 Hr2 Hne2|k0 r0 k0' Hr2 Hrest]; subst.
    + exfalso. apply Hne2. apply (roots_answer_unique _ _ _ _ Hk Hr2 Hr).
    + apply IH; [lia|exact Hrest].
Qed.

Lemma cell_runs_functional n e c o1 o2 :
  cell_runs n e c o1 -> cell_runs n e c o2 -> o1 = o2.
Proof.
  intros [r1 k1 H1] [r2 k2 H2].
  destruct (loop_runs_functional n e 2 r1 k1 r2 k2 ltac:(lia) H1 H2) as [-> _].
  reflexivity.
Qed.

Lemma search_loop_runs fuel n e k x :
  2 <= k -> search fuel n e k = Some x ->
  loop_runs n e k (exit_r x) (exit_k x).
Proof.
  revert k x. induction fuel as [|fuel IH]; intros k x Hk H; [discriminate|].
  rewrite search_S in H.
  pose proof (roots_answer_computed (n * e) k Hk) as Hans.
  destruct (Sage.roots (n * e) k) as [|a l] eqn:E.
  - destruct (search fuel n e (k + 2)) as [y|] eqn:Ey; [|discriminate].
    injection H as <-. cbn [log_turn exit_r exit_k].
    apply loop_turn; [exact Hans|]. apply IH; [lia|exact Ey].
  - injection H as <-. cbn [exit_r exit_k].
    apply loop_leave; [exact Hans|discriminate].
Qed.

(** The function [recover] is one of the runs. *)
Lemma recover_cell_runs fuel n e c :
  recover fuel n e c <> OutOfFuel -> cell_runs n e c (recover fuel n e c).
Proof.
  intros H. unfold recover in *.
  destruct (search fuel n e 2) as [x|] eqn:E; [|contradiction].
  change (cell_runs n e c (after_loop n e c (exit_r x))).
  apply (cell_run n e c (exit_r x) (exit_k x)).
  apply (search_loop_runs fuel); [lia|exact E].
Qed.

(** Claim C7.  The cell is deterministic, whatever list the library
    answers for the roots as long as it holds every integer root once: two
    runs on the same [(n, e, ciphertext)] that come to an end leave
    identical [p], [q], [d] and plaintext.  The order of the answer, the one
    thing two runs could differ in, is never observed, because for the
    [k >= 2] of the loop the quadratic has at most one integer root. *)
Theorem cell_deterministic n e c s1 s2 :
  cell_runs n e c (Done s1) -> cell_runs n e c (Done s2) ->
  sec_p s1 = sec_p s2 /\ sec_q s1 = sec_q s2 /\
  sec_d s1 = sec_d s2 /\ sec_plaintext s1 = sec_plaintext s2.
Proof.
  intros H1 H2.
  pose proof (cell_runs_functional _ _ _ _ _ H1 H2) as E.
  injection E as ->. repeat split.
Qed.

(** Two runs on the key [(55, 9)] and the ciphertext [17]: one given turn
    by turn, one by the function [recover]. *)
Lemma cell_deterministic_witness :
  sec_p (Secrets 11 (inject_Z 5) 9 2) = sec_p (Secrets 11 (inject_Z 5) 9 2) /\
  sec_q (Secrets 11 (inject_Z 5) 9 2) = sec_q (Secrets 11 (inject_Z 5) 9 2) /\
  sec_d (Secrets 11 (inject_Z 5) 9 2) = sec_d (Secrets 11 (inject_Z 5) 9 2) /\
  sec_plaintext (Secrets 11 (inject_Z 5) 9 2) =
  sec_plaintext (Secrets 11 (inject_Z 5) 9 2).
Proof.
  apply (cell_deterministic 55 9 17).
  - apply (cell_run 55 9 17 [(11, 1)] 6).
    apply loop_turn; [apply (roots_answer_computed (55 * 9) 2); lia|].
    apply (loop_leave 55 9 (2 + 2) [(11, 1)]); [|discriminate].
    apply (roots_answer_computed (55 * 9) 4). lia.
  - apply (recover_cell_runs 7 55 9 17). vm_compute. discriminate.
Defined.

(** Claim C8.  For odd primes [p], [q] and [e] with [q*e = k*p + 1], the
    multiplier [k] is even.  The even values of [k] therefore lose no
    solution: [k] is at least two and the quadratic for this [k] has the
    root [p]. *)
Theorem weak_relation_even p q e k :
  Z.prime p -> Z.prime q -> Z.prime e ->
  Z.odd p = true -> Z.odd q = true -> Z.odd e = true ->
  weak_relation p q e k ->
  Z.even k = true /\ 2 <= k /\ Sage.roots (p * q * e) k = [(p, 1)].
Proof.
  intros Hp Hq He Hpo Hqo Heo Hrel. unfold weak_relation in Hrel.
  pose proof (Z.prime_ge_2 _ Hp). pose proof (Z.prime_ge_2 _ Hq).
  pose proof (Z.prime_ge_2 _ He).
  assert (Heven : Z.even k = true).
  { assert (Ho : Z.odd (q * e) = true) by (rewrite Z.odd_mul, Hqo, Heo; reflexivity).
    rewrite Hrel, Z.add_comm, Z.odd_add, Z.odd_mul, Hpo, andb_true_r in Ho.
    simpl in Ho. rewrite <- Z.negb_even in Ho.
    destruct (Z.even k); [reflexivity|discriminate]. }
  assert (Hk : 2 <= k).
  { assert (0 < k).
    { assert (2 * 2 <= q * e) by mono.
      destruct (Z.lt_ge_cases 0 k) as [|Hle]; [assumption|exfalso].
      assert (k * p <= 0 * p) by mono. lia. }
    destruct (Z.eq_dec k 1) as [E|]; [|lia]. rewrite E in Heven. discriminate. }
  repeat split; try assumption.
  apply roots_root; [exact Hk|]. rewrite <- Hrel. ring.
Qed.

(** [5 * 3 = 2 * 7 + 1]. *)
Lemma weak_relation_even_witness :
  Z.even 2 = true /\ 2 <= 2 /\ Sage.roots (7 * 5 * 3) 2 = [(7, 1)].
Proof.
  apply (weak_relation_even 7 5 3 2);
    try (apply is_prime_sound; vm_compute; reflexivity);
    try reflexivity.
Defined.

(** Claim C1 does not hold as stated.  The key [(p, q, e) = (5, 3, 7)] is
    a weak key in the sense of the claim, with [e > p]: already [k = 2]
    gives the root [7] of [105 = 7*(2*7 + 1)], which is [e] and not a factor
    of [n = 15], and the run ends in a [TypeError].  The key
    [(p, q, e) = (5, 2, 3)] is one too, with [q = 2]: its multiplier is the
    odd [k = 1], the loop leaves at [k = 8] with the root [-2], and the run
    ends in a [ZeroDivisionError] since [3] has no inverse modulo [18]. *)
Lemma recover_fails_on_small_keys :
  (weak_key 5 3 7 /\ 0 <= 2 < 5 * 3 /\
   forall fuel,
     recover (S fuel) (5 * 3) 7 (2 ^ 7 mod (5 * 3)) = Raise TypeError) /\
  (weak_key 5 2 3 /\ 0 <= 2 < 5 * 2 /\
   forall fuel, (4 <= fuel)%nat ->
     recover fuel (5 * 2) 3 (2 ^ 3 mod (5 * 2)) = Raise ZeroDivisionError).
Proof.
  split; (split; [|split; [lia|]]).
  - constructor; try (apply is_prime_sound); try lia; vm_compute; reflexivity.
  - intros fuel.
    rewrite (recover_fuel 1 (S fuel)); [vm_compute; reflexivity| |lia].
    vm_compute. discriminate.
  - constructor; try (apply is_prime_sound); try lia; vm_compute; reflexivity.
  - intros fuel Hfuel.
    rewrite (recover_fuel 4 fuel); [vm_compute; reflexivity| |exact Hfuel].
    vm_compute. discriminate.
Qed.

(** ** Weak keys whose multiplier is the first even [k] with a root *)

Lemma weak_key_multiplier_even p q e :
  weak_key p q e -> Z.odd q = true -> 0 < e ->
  2 <= (q * e - 1) / p /\ Z.even ((q * e - 1) / p) = true.
Proof.
  intros Hwk Hodd He.
  pose proof (weak_key_relation _ _ _ Hwk) as Hrel.
  pose proof (weak_key_e_odd _ _ _ Hwk) as Heodd.
  destruct Hwk as [Hp Hq Hr Hinv Hcop].
  pose proof (Z.prime_ge_2 _ Hq) as Hq2.
  pose proof (prime_odd p Hp ltac:(lia)) as Hpodd.
  unfold weak_relation in Hrel. set (K := (q * e - 1) / p) in *.
  assert (HKeven : Z.even K = true).
  { assert (Ho : Z.odd (q * e) = true)
      by (rewrite Z.odd_mul, Hodd, Heodd; reflexivity).
    rewrite Hrel, Z.add_comm, Z.odd_add, Z.odd_mul, Hpodd, andb_true_r in Ho.
    simpl in Ho. rewrite <- Z.negb_even in Ho.
    destruct (Z.even K); [reflexivity|discriminate]. }
  split; [|exact HKeven].
  assert (HKpos : 0 < K).
  { assert (2 * 1 <= q * e) by mono.
    destruct (Z.lt_ge_cases 0 K) as [|Hle]; [assumption|exfalso].
    assert (K * p <= 0 * p) by mono. lia. }
  destruct (Z.eq_dec K 1) as [E|]; [|lia]. rewrite E in HKeven. discriminate.
Qed.

Lemma weak_key_search_first p q e fuel :
  weak_key p q e -> Z.odd q = true -> 0 < e ->
  (forall k x, 2 <= k < (q * e - 1) / p -> Z.even k = true ->
               p * q * e <> x * (k * x + 1)) ->
  (Z.to_nat ((q * e - 1) / p / 2) <= fuel)%nat ->
  search fuel (p * q) e 2 =
  Some (LoopExit [(p, 1)] ((q * e - 1) / p + 2)
          (map (fun i => 2 + 2 * Z.of_nat i)
               (seq 0 (Z.to_nat ((q * e - 1) / p / 2))))).
Proof.
  intros Hwk Hodd He Hfirst Hfuel.
  pose proof (weak_key_relation _ _ _ Hwk) as Hrel.
  destruct (weak_key_multiplier_even p q e Hwk Hodd He) as [HK2 HKeven].
  unfold weak_relation in Hrel. set (K := (q * e - 1) / p) in *.
  apply Z.even_spec in HKeven. destruct HKeven as [h Hh].
  assert (Hhalf : K / 2 = h) by (rewrite Hh, Z.mul_comm; apply Z.div_mul; lia).
  rewrite Hhalf in *.
  assert (Hroot : Sage.roots (p * q * e) K = [(p, 1)]).
  { apply roots_root; [exact HK2|]. rewrite <- Hrel. ring. }
  destruct (Z.to_nat h) as [|j] eqn:Ej; [lia|].
  assert (HKj : K = 2 + 2 * Z.of_nat j) by lia.
  rewrite (search_found fuel (p * q) e 2 j).
  - rewrite <- HKj, Hroot. reflexivity.
  - lia.
  - intros i Hi. apply roots_none; [lia|].
    intros x. apply Hfirst; [lia|].
    rewrite Z.even_add, !Z.even_mul. reflexivity.
  - rewrite <- HKj, Hroot. discriminate.
Qed.

Lemma weak_key_recover_first p q e m fuel :
  weak_key p q e -> Z.odd q = true -> 0 < e ->
  (forall k x, 2 <= k < (q * e - 1) / p -> Z.even k = true ->
               p * q * e <> x * (k * x + 1)) ->
  0 <= m < p * q ->
  (Z.to_nat ((q * e - 1) / p / 2) <= fuel)%nat ->
  recover fuel (p * q) e (m ^ e mod (p * q)) =
  Done (Secrets p (inject_Z q) (Z.invmod e ((p - 1) * (q - 1))) m).
Proof.
  intros Hwk Hodd He Hfirst Hm Hfuel.
  unfold recover.
  rewrite (weak_key_search_first p q e fuel Hwk Hodd He Hfirst Hfuel).
  cbn [exit_r].
  destruct Hwk as [Hp Hq Hr Hinv Hcop].
  pose proof (Z.prime_ge_2 _ Hq) as Hq2.
  rewrite div_exact by lia. cbn [bind].
  rewrite modulus_integer, inverse_mod_integer.
  assert (Hphi : 2 * 1 <= (p - 1) * (q - 1)) by mono.
  destruct (Integer_inverse_mod_coprime e _ Hphi Hcop) as (Hinvmod & Hd & Hed).
  rewrite Hinvmod. cbn [bind].
  rewrite (power_mod_rsa p q e _ m); try assumption; try lia.
  reflexivity.
Qed.

(** A search that has not left after [j] turns has met no root at the even
    [k] up to [2*j]. *)
Lemma search_none_no_root (j : nat) n e :
  search j n e 2 = None ->
  forall k x, 2 <= k < 2 + 2 * Z.of_nat j -> Z.even k = true ->
              n * e <> x * (k * x + 1).
Proof.
  intros Hnone k x Hk Heven HN.
  apply Z.even_spec in Heven. destruct Heven as [h Hh].
  apply (search_halts j n e 2 (Z.to_nat (h - 1))); [lia| |exact Hnone].
  replace (2 + 2 * Z.of_nat (Z.to_nat (h - 1))) with k by lia.
  rewrite (roots_root _ _ x); [discriminate|lia|exact HN].
Qed.

(** Claim C1, amended.  For every key of the vulnerable procedure ([p]
    prime, [q] the inverse of [e] modulo [p] and prime, [n = p*q], [e]
    coprime to [(p-1)*(q-1)]) with [q] odd and [e > 0], for which no even
    [k] below the key's own multiplier [(q*e - 1)/p] gives
    [n*e = x*(k*x + 1)] an integer solution, and every plaintext
    [0 <= m < n], the cell run on [(n, e, m^e mod n)] with enough fuel comes
    to an end with the factors [p] and [q], the private exponent
    [d = e^-1 mod (p-1)*(q-1)] and the plaintext [m].  (By [no_early_root]
    the condition on [k] holds whenever [e < p].) *)
Theorem recover_weak_key p q e m :
  weak_key p q e -> Z.odd q = true -> 0 < e ->
  (forall k x, 2 <= k < (q * e - 1) / p -> Z.even k = true ->
               p * q * e <> x * (k * x + 1)) ->
  0 <= m < p * q ->
  exists fuel0 : nat, forall fuel, (fuel0 <= fuel)%nat ->
    recover fuel (p * q) e (m ^ e mod (p * q)) =
    Done (Secrets p (inject_Z q) (Z.invmod e ((p - 1) * (q - 1))) m).
Proof.
  intros Hwk Hodd He Hfirst Hm.
  exists (Z.to_nat ((q * e - 1) / p / 2)).
  intros fuel Hfuel. apply weak_key_recover_first; assumption.
Qed.

(** The 16-bit prime [p = 32939] with [e = 65537 > p]: [q = 4057], the
    multiplier is [8072], and the plaintext is [1234567]. *)
Lemma recover_weak_key_witness :
  exists fuel0 : nat, forall fuel, (fuel0 <= fuel)%nat ->
    recover fuel (32939 * 4057) 65537 (1234567 ^ 65537 mod (32939 * 4057)) =
    Done (Secrets 32939 (inject_Z 4057)
            (Z.invmod 65537 ((32939 - 1) * (4057 - 1))) 1234567).
Proof.
  apply (recover_weak_key 32939 4057 65537 1234567).
  - constructor; try (apply is_prime_sound); try lia; vm_compute; reflexivity.
  - reflexivity.
  - lia.
  - assert (HK : (4057 * 65537 - 1) / 32939 = 2 + 2 * Z.of_nat 4035)
      by (vm_compute; reflexivity).
    rewrite HK. change (32939 * 4057 * 65537) with ((32939 * 4057) * 65537).
    apply (search_none_no_root 4035). vm_compute. reflexivity.
  - lia.
Defined.

(** ** Inputs outside the data model *)

Lemma quadratic_nonneg k x : 2 <= k -> 0 <= x * (k * x + 1).
Proof.
  intros Hk. destruct (Z.le_gt_cases 0 x) as [Hx|Hx].
  - apply Z.mul_nonneg_nonneg; [exact Hx|].
    assert (0 <= k * x) by (apply Z.mul_nonneg_nonneg; lia). lia.
  - apply Z.mul_nonpos_nonpos; [lia|].
    assert (k * x <= k * (-1)) by mono. lia.
Qed.

Lemma power_mod_reduce c d n :
  0 < d -> Sage.power_mod c d n = Sage.power_mod (c mod n) d n.
Proof.
  intros Hd. unfold Sage.power_mod.
  destruct (n =? 0); [reflexivity|].
  destruct (n =? 1); [reflexivity|].
  destruct (Z.ltb_spec d 0) as [|_]; [lia|].
  destruct (Z.eqb_spec d 0) as [|_]; [lia|].
  rewrite Z.mod_pow_l. reflexivity.
Qed.

(** Claim C6 does not hold as stated: the ciphertext [57 >= n = 55] is
    decrypted (to [17], like [57 mod 55 = 2]), and the exponent [e = 1] with
    [n = 10] is accepted (the plaintext is the ciphertext).  Nothing is
    validated before the search. *)
Lemma recover_accepts_malformed :
  (55 <= 57 /\ recover 2 55 9 57 = Done (Secrets 11 (inject_Z 5) 9 17)) /\
  (1 <= 1 /\ recover 1 10 1 3 = Done (Secrets 2 (inject_Z 5) 1 3)).
Proof.
  split; (split; [lia|vm_compute; reflexivity]).
Qed.

(** Claim C6, amended.  The cell validates nothing and goes straight
    into the search.  What an input outside the data model leads to follows
    from the arithmetic alone: with [n*e < 0] the loop is never left, with
    [n*e = 0] the run ends in the [ZeroDivisionError] of [q = n / p], and a
    ciphertext that is not reduced is decrypted like its residue modulo [n]
    whenever the recovered [d] is positive. *)
Theorem recover_unvalidated fuel n e c :
  (n * e < 0 -> recover fuel n e c = OutOfFuel) /\
  (n * e = 0 -> recover (S fuel) n e c = Raise ZeroDivisionError) /\
  (forall s, recover fuel n e (c mod n) = Done s -> 0 < sec_d s ->
             recover fuel n e c = Done s).
Proof.
  split; [|split].
  - intros Hneg. unfold recover. rewrite search_loops; [reflexivity|].
    intros i. apply roots_none; [lia|]. intros x.
    pose proof (quadratic_nonneg (2 + 2 * Z.of_nat i) x ltac:(lia)). lia.
  - intros Hz.
    rewrite (recover_step (S fuel) n e c (LoopExit [(0, 1)] 4 [2]) 0 1 []).
    + reflexivity.
    + rewrite search_S. rewrite (roots_root (n * e) 2 0); [reflexivity|lia|lia].
    + reflexivity.
  - intros s. unfold recover.
    destruct (search fuel n e 2) as [x|]; [|discriminate].
    destruct (exit_r x) as [|[p mu] l]; [discriminate|].
    destruct (Sage.div n p) as [q| |]; cbn [bind]; try discriminate.
    destruct (Sage.inverse_mod e _) as [d| |]; cbn [bind]; try discriminate.
    intros H Hd.
    destruct (Sage.power_mod (c mod n) d n) as [pt| |] eqn:E; cbn [bind] in H;
      try discriminate.
    injection H as <-. cbn [sec_d] in Hd.
    rewrite (power_mod_reduce c d n Hd), E. reflexivity.
Qed.

(** The inputs [(-7, 3)], [(0, 3)] and [(55, 9)] with ciphertext [57]. *)
Lemma recover_unvalidated_witness :
  recover 5 (-7) 3 1 = OutOfFuel /\
  recover (S 5) 0 3 1 = Raise ZeroDivisionError /\
  recover 2 55 9 57 = Done (Secrets 11 (inject_Z 5) 9 17).
Proof.
  split; [|split].
  - apply (proj1 (recover_unvalidated 5 (-7) 3 1)). lia.
  - apply (proj1 (proj2 (recover_unvalidated 5 0 3 1))). lia.
  - apply (proj2 (proj2 (recover_unvalidated 2 55 9 57))).
    + vm_compute. reflexivity.
    + simpl. lia.
Defined.

(** ** The slice *)

Lemma trailing_app (pad flag : list byte) : trailing (length flag) (pad ++ flag) = flag.
Proof.
  unfold trailing. rewrite length_app.
  replace (length pad + length flag - length flag)%nat with (length pad) by lia.
  rewrite skipn_app, skipn_all, Nat.sub_diag. reflexivity.
Qed.

Lemma slice_from_trailing (len : nat) (s : list byte) :
  (0 < len)%nat -> Python.slice_from (- Z.of_nat len) s = trailing len s.
Proof.
  intros Hlen. unfold Python.slice_from, trailing.
  destruct (Z.ltb_spec (- Z.of_nat len) 0) as [_|]; [|lia].
  f_equal. lia.
Qed.

(** Claim C9.  When the byte string of the decrypted plaintext is some
    padding followed by the flag, its trailing slice of the length of the
    flag is the flag: as the last [len(flag)] bytes, as the Python slice
    [[-len(flag):]] of a flag that is not empty, and, for a flag of 48
    bytes, as the slice [[-48:]] that the cell prints. *)
Theorem flag_slice m (pad flag : list byte) :
  PyCrypto.long_to_bytes m = pad ++ flag ->
  trailing (length flag) (PyCrypto.long_to_bytes m) = flag /\
  (flag <> [] ->
   Python.slice_from (- Z.of_nat (length flag)) (PyCrypto.long_to_bytes m) = flag) /\
  (length flag = 48%nat -> flag_of m = flag).
Proof.
  intros H. rewrite H. split; [apply trailing_app|]. split.
  - intros Hne. rewrite slice_from_trailing; [apply trailing_app|].
    destruct flag; [contradiction|simpl; lia].
  - intros Hlen. unfold flag_of. rewrite H.
    change (-48) with (- Z.of_nat 48). rewrite slice_from_trailing by lia.
    rewrite <- Hlen. apply trailing_app.
Qed.

(** The plaintext [2^391 + 1]: one byte of padding and 48 bytes of flag. *)
Lemma flag_slice_witness :
  trailing (length (repeat x00 47 ++ [x01]))
           (PyCrypto.long_to_bytes (2 ^ 391 + 1)) = repeat x00 47 ++ [x01] /\
  (repeat x00 47 ++ [x01] <> [] ->
   Python.slice_from (- Z.of_nat (length (repeat x00 47 ++ [x01])))
                     (PyCrypto.long_to_bytes (2 ^ 391 + 1)) =
   repeat x00 47 ++ [x01]) /\
  (length (repeat x00 47 ++ [x01]) = 48%nat ->
   flag_of (2 ^ 391 + 1) = repeat x00 47 ++ [x01]).
Proof.
  apply (flag_slice (2 ^ 391 + 1) [x80] (repeat x00 47 ++ [x01])).
  vm_compute. reflexivity.
Defined.

(** * Further properties of the cell *)

(** ** The byte codec *)

Lemma Z_of_byte_range b : 0 <= PyCrypto.Z_of_byte b < 256.
Proof.
  unfold PyCrypto.Z_of_byte. pose proof (Byte.to_N_bounded b). lia.
Qed.

Lemma Z_of_byte_of_Z z : PyCrypto.Z_of_byte (PyCrypto.byte_of_Z z) = z mod 256.
Proof.
  unfold PyCrypto.Z_of_byte, PyCrypto.byte_of_Z.
  pose proof (Z.mod_pos_bound z 256 ltac:(lia)) as Hr.
  destruct (Byte.of_N (Z.to_N (z mod 256))) as [b|] eqn:E.
  - apply Byte.to_of_N in E. rewrite E. lia.
  - apply Byte.of_N_None_iff in E. lia.
Qed.

Lemma Z_of_byte_inj a b : PyCrypto.Z_of_byte a = PyCrypto.Z_of_byte b -> a = b.
Proof.
  unfold PyCrypto.Z_of_byte. intros H. apply N2Z.inj in H.
  pose proof (Byte.of_to_N a) as Ha. rewrite H, Byte.of_to_N in Ha.
  congruence.
Qed.

Lemma Z_of_byte_zero b : PyCrypto.Z_of_byte b = 0 <-> b = x00.
Proof.
  split.
  - intros H. apply Z_of_byte_inj. rewrite H. reflexivity.
  - intros ->. reflexivity.
Qed.

Lemma fold_value s acc :
  fold_left (fun a b => a * 256 + PyCrypto.Z_of_byte b) s acc =
  acc * 256 ^ Z.of_nat (length s) + be_value s.
Proof.
  unfold be_value. revert acc. induction s as [|b s IH]; intros acc.
  - simpl. lia.
  - cbn [fold_left length]. rewrite IH, (IH (0 * 256 + _)).
    rewrite Nat2Z.inj_succ, Z.pow_succ_r by lia. ring.
Qed.

Lemma be_value_app s t :
  be_value (s ++ t) = be_value s * 256 ^ Z.of_nat (length t) + be_value t.
Proof.
  unfold be_value at 1. rewrite fold_left_app. fold (be_value s).
  apply fold_value.
Qed.

Lemma be_value_cons b s :
  be_value (b :: s) = PyCrypto.Z_of_byte b * 256 ^ Z.of_nat (length s) + be_value s.
Proof.
  change (b :: s) with ([b] ++ s). rewrite be_value_app. reflexivity.
Qed.

Lemma be_value_range s : 0 <= be_value s < 256 ^ Z.of_nat (length s).
Proof.
  induction s as [|b s IH].
  - simpl. unfold be_value. simpl. lia.
  - rewrite be_value_cons. cbn [length].
    rewrite Nat2Z.inj_succ, Z.pow_succ_r by lia.
    pose proof (Z_of_byte_range b). nia.
Qed.

Lemma be_value_zeros (j : nat) s : be_value (repeat x00 j ++ s) = be_value s.
Proof.
  induction j as [|j IH]; [reflexivity|].
  cbn [repeat app]. rewrite be_value_cons, IH. reflexivity.
Qed.

Lemma unpack_words_value (len : nat) s acc :
  length s = (4 * len)%nat ->
  PyCrypto.unpack_words s acc =
  fold_left (fun a b => a * 256 + PyCrypto.Z_of_byte b) s acc.
Proof.
  revert s acc. induction len as [|len IH]; intros s acc Hlen.
  - destruct s; [reflexivity|discriminate].
  - destruct s as [|a [|b [|c [|d s]]]]; simpl in Hlen; try lia.
    cbn [PyCrypto.unpack_words fold_left]. rewrite IH by lia.
    f_equal. unfold PyCrypto.unpack_I. rewrite !Z.shiftl_mul_pow2 by lia.
    change (2 ^ 32) with 4294967296. change (2 ^ 24) with 16777216.
    change (2 ^ 16) with 65536. change (2 ^ 8) with 256. ring.
Qed.

Lemma bytes_to_long_value s : PyCrypto.bytes_to_long s = be_value s.
Proof.
  unfold PyCrypto.bytes_to_long.
  pose proof (Nat.div_mod_eq (length s) 4) as Hdm.
  pose proof (Nat.mod_upper_bound (length s) 4 ltac:(lia)) as Hlt.
  destruct (Nat.eqb_spec (length s mod 4) 0) as [Hz|Hnz].
  - rewrite (unpack_words_value (length s / 4)) by lia. reflexivity.
  - rewrite (unpack_words_value (S (length s / 4))).
    + fold (be_value (repeat x00 (4 - length s mod 4) ++ s)).
      apply be_value_zeros.
    + rewrite length_app, repeat_length. lia.
Qed.

Lemma be_value_strip s : be_value (PyCrypto.strip_zeros s) = be_value s.
Proof.
  induction s as [|b s IH]; [reflexivity|].
  destruct b; try reflexivity.
  cbn [PyCrypto.strip_zeros]. rewrite IH, be_value_cons. reflexivity.
Qed.

Lemma strip_zeros_head s b t : PyCrypto.strip_zeros s = b :: t -> b <> x00.
Proof.
  induction s as [|a s IH]; [discriminate|].
  destruct a; cbn [PyCrypto.strip_zeros]; try (intros H; injection H as <- _; discriminate).
  exact IH.
Qed.

Lemma strip_zeros_fixed b t : b <> x00 -> PyCrypto.strip_zeros (b :: t) = b :: t.
Proof.
  intros Hb. destruct b; try reflexivity. contradiction.
Qed.

Lemma pack_I_value w : 0 <= w < 2 ^ 32 -> be_value (PyCrypto.pack_I w) = w.
Proof.
  intros Hw. unfold PyCrypto.pack_I, be_value. cbn [fold_left].
  rewrite !Z_of_byte_of_Z, !Z.shiftr_div_pow2 by lia.
  change (2 ^ 32) with 4294967296 in Hw. change (2 ^ 24) with 16777216.
  change (2 ^ 16) with 65536. change (2 ^ 8) with 256.
  Z.div_mod_to_equations. lia.
Qed.

Lemma words_value fuel n s :
  0 <= n < 2 ^ (32 * Z.of_nat fuel) ->
  exists w, PyCrypto.words fuel n s = w ++ s /\ be_value w = n.
Proof.
  revert n s. induction fuel as [|fuel IH]; intros n s Hn.
  - exists []. simpl in *. split; [reflexivity|]. unfold be_value. simpl. lia.
  - cbn [PyCrypto.words]. destruct (Z.ltb_spec 0 n) as [Hpos|Hz].
    + assert (H32 : 0 <= Z.shiftr n 32 < 2 ^ (32 * Z.of_nat fuel)).
      { rewrite Z.shiftr_div_pow2 by lia. split; [apply Z.div_pos; lia|].
        apply Z.div_lt_upper_bound; [lia|].
        rewrite <- Z.pow_add_r by lia.
        replace (32 + 32 * Z.of_nat fuel) with (32 * Z.of_nat (S fuel)) by lia.
        lia. }
      destruct (IH _ (PyCrypto.pack_I (Z.land n 4294967295) ++ s) H32)
        as (w & Hw & Hval).
      exists (w ++ PyCrypto.pack_I (Z.land n 4294967295)).
      split; [rewrite Hw, app_assoc; reflexivity|].
      rewrite be_value_app, Hval.
      change 4294967295 with (Z.ones 32). rewrite Z.land_ones by lia.
      rewrite pack_I_value by (apply Z.mod_pos_bound; lia).
      rewrite Z.shiftr_div_pow2 by lia. cbn [PyCrypto.pack_I length].
      change (256 ^ Z.of_nat 4) with (2 ^ 32).
      pose proof (Z.div_mod n (2 ^ 32) ltac:(lia)). lia.
    + exists []. split; [reflexivity|]. unfold be_value. simpl. lia.
Qed.

Lemma words_nil_value n :
  be_value (PyCrypto.words (S (Z.to_nat (Z.log2 n))) n []) = Z.max 0 n.
Proof.
  destruct (Z.le_gt_cases n 0) as [Hn|Hn].
  - cbn [PyCrypto.words]. destruct (Z.ltb_spec 0 n); [lia|].
    unfold be_value. simpl. lia.
  - destruct (words_value (S (Z.to_nat (Z.log2 n))) n []) as (w & Hw & Hval).
    + split; [lia|].
      pose proof (Z.log2_nonneg n).
      apply Z.lt_le_trans with (2 ^ (Z.log2 n + 1)).
      * apply Z.log2_spec in Hn. replace (Z.log2 n + 1) with (Z.succ (Z.log2 n)) by lia. lia.
      * apply Z.pow_le_mono_r; lia.
    + rewrite Hw, app_nil_r, Hval. lia.
Qed.

Lemma long_to_bytes_value n : be_value (PyCrypto.long_to_bytes n) = Z.max 0 n.
Proof.
  unfold PyCrypto.long_to_bytes.
  set (W := PyCrypto.words _ n []).
  transitivity (be_value (PyCrypto.strip_zeros W)).
  - destruct (PyCrypto.strip_zeros W); reflexivity.
  - rewrite be_value_strip. apply words_nil_value.
Qed.

(** Strings without a leading zero byte are the fixed points of
    [strip_zeros]; they are determined by the number they denote. *)

Lemma strip_zeros_idem s :
  PyCrypto.strip_zeros (PyCrypto.strip_zeros s) = PyCrypto.strip_zeros s.
Proof.
  destruct (PyCrypto.strip_zeros s) as [|b t] eqn:E; [reflexivity|].
  apply strip_zeros_fixed. apply (strip_zeros_head s b t E).
Qed.

Lemma stripped_lower s :
  PyCrypto.strip_zeros s = s -> s <> [] ->
  256 ^ (Z.of_nat (length s) - 1) <= be_value s.
Proof.
  intros Hs Hne. destruct s as [|b t]; [contradiction|].
  pose proof (strip_zeros_head _ _ _ Hs) as Hb.
  rewrite be_value_cons. cbn [length].
  replace (Z.of_nat (S (length t)) - 1) with (Z.of_nat (length t)) by lia.
  pose proof (Z_of_byte_range b) as Hr.
  assert (PyCrypto.Z_of_byte b <> 0) by (rewrite Z_of_byte_zero; exact Hb).
  pose proof (be_value_range t) as Ht.
  assert (1 * 256 ^ Z.of_nat (length t)
          <= PyCrypto.Z_of_byte b * 256 ^ Z.of_nat (length t))
    by (apply Z.mul_le_mono_nonneg_r; lia).
  lia.
Qed.

Lemma be_value_inj_length s t :
  length s = length t -> be_value s = be_value t -> s = t.
Proof.
  revert t. induction s as [|a s IH]; intros [|b t] Hlen Hval;
    try discriminate; [reflexivity|].
  injection Hlen as Hlen. rewrite !be_value_cons, <- Hlen in Hval.
  pose proof (be_value_range s) as Hs. pose proof (be_value_range t) as Ht.
  rewrite <- Hlen in Ht.
  set (P := 256 ^ Z.of_nat (length s)) in *.
  assert (Hab : PyCrypto.Z_of_byte a = PyCrypto.Z_of_byte b).
  { destruct (Z.lt_trichotomy (PyCrypto.Z_of_byte a) (PyCrypto.Z_of_byte b))
      as [Hlt|[Heq|Hgt]]; [exfalso|exact Heq|exfalso].
    - assert ((PyCrypto.Z_of_byte a + 1) * P <= PyCrypto.Z_of_byte b * P)
        by (apply Z.mul_le_mono_nonneg_r; lia). lia.
    - assert ((PyCrypto.Z_of_byte b + 1) * P <= PyCrypto.Z_of_byte a * P)
        by (apply Z.mul_le_mono_nonneg_r; lia). lia. }
  rewrite Hab in Hval. f_equal.
  - apply Z_of_byte_inj. exact Hab.
  - apply IH; [exact Hlen|lia].
Qed.

Lemma stripped_unique s t :
  PyCrypto.strip_zeros s = s -> PyCrypto.strip_zeros t = t ->
  be_value s = be_value t -> s = t.
Proof.
  intros Hs Ht Hval. apply be_value_inj_length; [|exact Hval].
  assert (Hlen : forall u v,
             PyCrypto.strip_zeros u = u -> PyCrypto.strip_zeros v = v ->
             be_value u = be_value v -> (length u <= length v)%nat).
  { intros u v Hu Hv Huv.
    destruct (Nat.le_gt_cases (length u) (length v)) as [|Hgt]; [assumption|exfalso].
    assert (Hune : u <> []) by (intros ->; simpl in Hgt; lia).
    pose proof (stripped_lower u Hu Hune) as Hlow.
    pose proof (be_value_range v) as Hup.
    assert (256 ^ Z.of_nat (length v) <= 256 ^ (Z.of_nat (length u) - 1))
      by (apply Z.pow_le_mono_r; lia).
    lia. }
  apply Nat.le_antisymm; apply Hlen; auto.
Qed.

(** Property X11.  Reading back what [long_to_bytes] wrote gives the number
    again; a negative number was written as the zero byte and reads back
    as zero. *)
Theorem bytes_to_long_long_to_bytes n :
  PyCrypto.bytes_to_long (PyCrypto.long_to_bytes n) = Z.max 0 n.
Proof.
  rewrite bytes_to_long_value. apply long_to_bytes_value.
Qed.

(** Property X12.  Writing out what [bytes_to_long] read gives the string
    without its leading zero bytes, and the single zero byte when nothing
    else is left. *)
Theorem long_to_bytes_bytes_to_long s :
  PyCrypto.long_to_bytes (PyCrypto.bytes_to_long s) =
  match PyCrypto.strip_zeros s with
  | [] => [x00]
  | t => t
  end.
Proof.
  rewrite bytes_to_long_value. unfold PyCrypto.long_to_bytes.
  set (W := PyCrypto.words _ (be_value s) []).
  assert (HW : be_value W = be_value s).
  { unfold W. rewrite words_nil_value. pose proof (be_value_range s). lia. }
  rewrite (stripped_unique (PyCrypto.strip_zeros W) (PyCrypto.strip_zeros s)).
  - reflexivity.
  - apply strip_zeros_idem.
  - apply strip_zeros_idem.
  - rewrite !be_value_strip. exact HW.
Qed.

(** Property X13.  The ciphertext read from a file of [len] bytes is at
    least zero and below [256^len], and zero bytes in front of the file do
    not change it. *)
Theorem bytes_to_long_bounds s :
  0 <= PyCrypto.bytes_to_long s < 256 ^ Z.of_nat (length s) /\
  forall j : nat,
    PyCrypto.bytes_to_long (repeat x00 j ++ s) = PyCrypto.bytes_to_long s.
Proof.
  split.
  - rewrite bytes_to_long_value. apply be_value_range.
  - intros j. rewrite !bytes_to_long_value. apply be_value_zeros.
Qed.

(** Property X10.  [long_to_bytes] writes the shortest big-endian string:
    for [n > 0] the first byte is not zero and the length [len] is the one
    with [256^(len-1) <= n < 256^len]; for [n <= 0] it is the single zero
    byte. *)
Theorem long_to_bytes_minimal n :
  (n <= 0 -> PyCrypto.long_to_bytes n = [x00]) /\
  (0 < n ->
   hd x00 (PyCrypto.long_to_bytes n) <> x00 /\
   256 ^ (Z.of_nat (length (PyCrypto.long_to_bytes n)) - 1) <= n
     < 256 ^ Z.of_nat (length (PyCrypto.long_to_bytes n))).
Proof.
  split.
  - intros Hn. unfold PyCrypto.long_to_bytes. cbn [PyCrypto.words].
    destruct (Z.ltb_spec 0 n); [lia|reflexivity].
  - intros Hn.
    pose proof (long_to_bytes_value n) as Hval. rewrite Z.max_r in Hval by lia.
    assert (Hfix : PyCrypto.strip_zeros (PyCrypto.long_to_bytes n)
                   = PyCrypto.long_to_bytes n /\ PyCrypto.long_to_bytes n <> []).
    { revert Hval. unfold PyCrypto.long_to_bytes.
      destruct (PyCrypto.strip_zeros _) as [|b t] eqn:E.
      - intros H. change (be_value [x00]) with 0 in H. lia.
      - intros _. split; [|discriminate].
        apply strip_zeros_fixed. apply (strip_zeros_head _ _ _ E). }
    destruct Hfix as [Hfix Hne]. split; [|split].
    + destruct (PyCrypto.long_to_bytes n) as [|b t]; [contradiction|].
      apply (strip_zeros_head _ _ _ Hfix).
    + rewrite <- Hval at 2. apply stripped_lower; assumption.
    + rewrite <- Hval at 1. apply be_value_range.
Qed.

(** [65536] takes three bytes. *)
Lemma long_to_bytes_minimal_witness :
  hd x00 (PyCrypto.long_to_bytes 65536) <> x00 /\
  256 ^ (Z.of_nat (length (PyCrypto.long_to_bytes 65536)) - 1) <= 65536
    < 256 ^ Z.of_nat (length (PyCrypto.long_to_bytes 65536)).
Proof.
  apply (proj2 (long_to_bytes_minimal 65536)). lia.
Defined.

(** ** The printed slice *)

(** Property X9.  The cell prints the last 48 bytes of the plaintext
    string: never the empty string, [min 48 len] bytes of a string of [len]
    bytes, and the whole string when it has at most 48 bytes. *)
Theorem flag_of_clip m :
  flag_of m = trailing 48 (PyCrypto.long_to_bytes m) /\
  flag_of m <> [] /\
  length (flag_of m) = Nat.min 48 (length (PyCrypto.long_to_bytes m)) /\
  ((length (PyCrypto.long_to_bytes m) <= 48)%nat ->
   flag_of m = PyCrypto.long_to_bytes m).
Proof.
  assert (Hne : PyCrypto.long_to_bytes m <> []).
  { unfold PyCrypto.long_to_bytes. destruct (PyCrypto.strip_zeros _); discriminate. }
  assert (E : flag_of m = trailing 48 (PyCrypto.long_to_bytes m)).
  { unfold flag_of. change (-48) with (- Z.of_nat 48).
    apply slice_from_trailing. lia. }
  rewrite E. unfold trailing. repeat split.
  - intros H. apply (f_equal (@length byte)) in H. rewrite length_skipn in H.
    cbn [length] in H.
    assert (H0 : length (PyCrypto.long_to_bytes m) = 0%nat) by lia.
    destruct (PyCrypto.long_to_bytes m); [contradiction|discriminate].
  - rewrite length_skipn. lia.
  - intros Hlen. replace (length (PyCrypto.long_to_bytes m) - 48)%nat with 0%nat by lia.
    reflexivity.
Qed.

(** The three bytes of [0x414243] are printed as they are. *)
Lemma flag_of_clip_witness :
  flag_of 4276803 = PyCrypto.long_to_bytes 4276803.
Proof.
  apply (proj2 (proj2 (proj2 (flag_of_clip 4276803)))). vm_compute. lia.
Defined.

(** ** The root list *)

(** Property X1.  For [k <> 0] the list computed for
    [N - p*(k*p + 1)] holds exactly the integer solutions [x] of
    [N = x*(k*x + 1)], each with multiplicity one; for [k >= 2], the values
    the loop uses, it has at most one entry, so that [r[0][0]] drops no
    root. *)
Theorem roots_exact N k :
  k <> 0 ->
  (forall x mu, In (x, mu) (Sage.roots N k) <-> mu = 1 /\ N = x * (k * x + 1)) /\
  (2 <= k -> (length (Sage.roots N k) <= 1)%nat).
Proof.
  intros Hk. split.
  - intros x mu. split.
    + apply roots_sound. exact Hk.
    + intros [-> HN]. apply roots_complete; assumption.
  - apply roots_length.
Qed.

(** [N = 495] and [k = 4]. *)
Lemma roots_exact_witness :
  (forall x mu, In (x, mu) (Sage.roots 495 4) <-> mu = 1 /\ 495 = x * (4 * x + 1)) /\
  (2 <= 4 -> (length (Sage.roots 495 4) <= 1)%nat).
Proof.
  apply (roots_exact 495 4). lia.
Defined.

(** ** Odd products *)

(** Property X2.  When [n*e] is odd and at least three the loop is always
    left, after at most [(n*e - 1)/2] turns: at the latest [k = n*e - 1]
    has the root [p = 1]. *)
Theorem search_odd_product n e :
  Z.odd (n * e) = true -> 3 <= n * e ->
  exists x,
    search (Z.to_nat ((n * e - 1) / 2)) n e 2 = Some x /\
    exit_k x <= n * e + 1.
Proof.
  intros Hodd HN.
  apply Z.odd_spec in Hodd. destruct Hodd as [h Hh].
  assert (Hhalf : (n * e - 1) / 2 = h).
  { replace (n * e - 1) with (h * 2) by lia. apply Z.div_mul. lia. }
  rewrite Hhalf.
  destruct (search (Z.to_nat h) n e 2) as [x|] eqn:E.
  - exists x. split; [reflexivity|].
    destruct (search_exit _ _ _ _ _ E) as (j & Hj & _ & Hk & _).
    rewrite Hk. lia.
  - exfalso. revert E. apply (search_halts _ _ _ _ (Z.to_nat (h - 1))); [lia|].
    replace (2 + 2 * Z.of_nat (Z.to_nat (h - 1))) with (n * e - 1) by lia.
    rewrite (roots_root _ _ 1); [discriminate|lia|lia].
Qed.

(** [(n, e) = (7, 3)]. *)
Lemma search_odd_product_witness :
  exists x,
    search (Z.to_nat ((7 * 3 - 1) / 2)) 7 3 2 = Some x /\
    exit_k x <= 7 * 3 + 1.
Proof.
  apply (search_odd_product 7 3); [reflexivity|lia].
Defined.

(** ** What a run that ends has computed *)

Lemma div_divisible n p :
  p <> 0 -> n mod p = 0 -> Sage.div n p = Done (inject_Z (n / p)).
Proof.
  intros Hp Hn. apply Z.mod_divide in Hn; [|exact Hp].
  destruct Hn as [c ->]. rewrite Z.div_mul by exact Hp.
  rewrite Z.mul_comm. apply div_exact. exact Hp.
Qed.

Lemma inverse_mod_not_integer n p e :
  p <> 0 -> n mod p <> 0 ->
  Sage.inverse_mod e
    (Qred (inject_Z (p - 1) * (Qred (inject_Z n / inject_Z p) - 1))%Q)
  = Raise TypeError.
Proof.
  intros Hp Hn. unfold Sage.inverse_mod, Sage.Integer_of_Rational.
  destruct (Pos.eqb_spec (Qden (Qred (Qred (inject_Z (p - 1) *
    (Qred (inject_Z n / inject_Z p) - 1))))) 1) as [Hden|_]; [|reflexivity].
  exfalso. apply Qred_den_one in Hden.
  apply (modulus_not_integer n p _ _ Hp Hn (Qred_correct _)
           (Qeq_trans _ _ _ (Qeq_sym _ _ (Qred_correct _)) Hden)).
Qed.

Lemma recover_done_inv fuel n e c s :
  recover fuel n e c = Done s ->
  exists x,
    search fuel n e 2 = Some x /\ exit_r x = [(sec_p s, 1)] /\
    sec_p s <> 0 /\ n mod sec_p s = 0 /\
    sec_q s = inject_Z (n / sec_p s) /\
    Sage.Integer_inverse_mod e ((sec_p s - 1) * (n / sec_p s - 1))
      = Done (sec_d s) /\
    Sage.power_mod c (sec_d s) n = Done (sec_plaintext s).
Proof.
  intros H.
  destruct (search fuel n e 2) as [x|] eqn:Es;
    [|unfold recover in H; rewrite Es in H; discriminate].
  destruct (search_exit_root _ _ _ _ Es) as (p & Hr & _).
  rewrite (recover_step _ _ _ _ _ _ _ _ Es Hr) in H.
  exists x. split; [reflexivity|].
  destruct (Z.eq_dec p 0) as [->|Hp]; [discriminate|].
  destruct (Z.eq_dec (n mod p) 0) as [Hn|Hn].
  - rewrite (div_divisible n p Hp Hn) in H. cbn [bind] in H.
    rewrite modulus_integer, inverse_mod_integer in H.
    destruct (Sage.Integer_inverse_mod e _) as [d| |] eqn:Ed;
      cbn [bind] in H; try discriminate.
    destruct (Sage.power_mod c d n) as [pt| |] eqn:Ept;
      cbn [bind] in H; try discriminate.
    injection H as <-. cbn [sec_p sec_q sec_d sec_plaintext].
    repeat split; assumption.
  - exfalso. unfold Sage.div in H.
    destruct (Z.eqb_spec p 0) as [|_]; [contradiction|].
    cbn [bind] in H. rewrite (inverse_mod_not_integer n p e Hp Hn) in H.
    discriminate.
Qed.

(** Property X3.  A run that comes to an end has split [n]: the [p] it
    used is not zero and divides [n], [q] is the integer [n / p], and
    [n = p * q].  No plaintext is ever computed from a root that is not a
    factor of [n]. *)
Theorem recover_factors fuel n e c s :
  recover fuel n e c = Done s ->
  sec_p s <> 0 /\ (sec_p s | n) /\
  sec_q s = inject_Z (n / sec_p s) /\
  n = sec_p s * (n / sec_p s) /\
  (sec_p s | n * e).
Proof.
  intros H.
  destruct (recover_done_inv _ _ _ _ _ H) as (x & Hs & Hr & Hp & Hn & Hq & _).
  destruct (search_exit_root _ _ _ _ Hs) as (p & Hr' & _ & _ & HN).
  rewrite Hr in Hr'. injection Hr' as <-.
  repeat split; try assumption.
  - apply Z.mod_divide; assumption.
  - apply Z.div_exact; assumption.
  - exists (last (tested x) 0 * sec_p s + 1). lia.
Qed.

(** The run on [(55, 9)] with ciphertext [17]. *)
Lemma recover_factors_witness :
  sec_p (Secrets 11 (inject_Z 5) 9 2) <> 0 /\
  (sec_p (Secrets 11 (inject_Z 5) 9 2) | 55) /\
  sec_q (Secrets 11 (inject_Z 5) 9 2)
    = inject_Z (55 / sec_p (Secrets 11 (inject_Z 5) 9 2)) /\
  55 = sec_p (Secrets 11 (inject_Z 5) 9 2)
       * (55 / sec_p (Secrets 11 (inject_Z 5) 9 2)) /\
  (sec_p (Secrets 11 (inject_Z 5) 9 2) | 55 * 9).
Proof.
  apply (recover_factors 2 55 9 17). vm_compute. reflexivity.
Defined.

(** Property X4.  A run that comes to an end has found [e] coprime to
    [phi = (p-1)*(q-1)]; its [d] is zero when [|phi| = 1], and when
    [|phi| >= 2] it is the inverse of [e] modulo [|phi|] in [[0, |phi|)].
    (Nothing is said of [d] for [phi = 0], that is for [p = 1] or
    [q = 1].) *)
Theorem recover_exponent fuel n e c s :
  recover fuel n e c = Done s ->
  let phi := (sec_p s - 1) * (n / sec_p s - 1) in
  Z.gcd e phi = 1 /\
  (Z.abs phi = 1 -> sec_d s = 0) /\
  (2 <= Z.abs phi ->
   0 <= sec_d s < Z.abs phi /\ (e * sec_d s) mod Z.abs phi = 1).
Proof.
  intros H phi.
  destruct (recover_done_inv _ _ _ _ _ H) as (x & _ & _ & _ & _ & _ & Hd & _).
  fold phi in Hd. unfold Sage.Integer_inverse_mod in Hd.
  destruct (Z.eqb_spec (Z.abs phi) 1) as [Hone|Hne].
  - injection Hd as Hd. repeat split; try lia.
    rewrite <- Z.gcd_abs_r, Hone. apply Z.gcd_1_r.
  - destruct (Z.eqb_spec (Z.gcd e phi) 1) as [Hg|]; [|discriminate].
    injection Hd as Hd. split; [exact Hg|]. split; [lia|].
    intros Hphi.
    assert (Hc : Z.coprime e (Z.abs phi))
      by (unfold Z.coprime; rewrite Z.gcd_abs_r; exact Hg).
    destruct (Integer_inverse_mod_coprime e _ Hphi Hc) as (_ & Hrange & Hinv).
    rewrite <- Hd. split; assumption.
Qed.

(** The run on [(55, 9)]: [phi = 40] and [d = 9]. *)
Lemma recover_exponent_witness :
  let phi := (sec_p (Secrets 11 (inject_Z 5) 9 2) - 1)
             * (55 / sec_p (Secrets 11 (inject_Z 5) 9 2) - 1) in
  Z.gcd 9 phi = 1 /\
  (Z.abs phi = 1 -> sec_d (Secrets 11 (inject_Z 5) 9 2) = 0) /\
  (2 <= Z.abs phi ->
   0 <= sec_d (Secrets 11 (inject_Z 5) 9 2) < Z.abs phi /\
   (9 * sec_d (Secrets 11 (inject_Z 5) 9 2)) mod Z.abs phi = 1).
Proof.
  apply (recover_exponent 2 55 9 17). vm_compute. reflexivity.
Defined.

(** Property X5.  A run that comes to an end had [n <> 0]; for [n > 0]
    its plaintext lies in [[0, n)], and for [n > 1] and [d > 0] it is
    [ciphertext^d mod n]. *)
Theorem recover_plaintext fuel n e c s :
  recover fuel n e c = Done s ->
  n <> 0 /\
  (0 < n -> 0 <= sec_plaintext s < n) /\
  (1 < n -> 0 < sec_d s -> sec_plaintext s = c ^ sec_d s mod n).
Proof.
  intros H.
  destruct (recover_done_inv _ _ _ _ _ H) as (x & _ & _ & _ & _ & _ & Hd & Hpt).
  unfold Sage.power_mod in Hpt.
  destruct (Z.eqb_spec n 0) as [|Hn0]; [discriminate|].
  split; [exact Hn0|].
  destruct (Z.eqb_spec n 1) as [Hn1|Hn1].
  - injection Hpt as <-. split; intros; lia.
  - destruct (Z.ltb_spec (sec_d s) 0) as [Hneg|Hnn].
    + destruct (Sage.Integer_inverse_mod c n) as [a| |]; cbn [bind] in Hpt;
        try discriminate.
      injection Hpt as <-. split; [|intros; lia].
      intros Hn. apply Z.mod_pos_bound. exact Hn.
    + destruct (Z.eqb_spec (sec_d s) 0) as [Hz|Hnz].
      * destruct (c =? 0); [discriminate|]. injection Hpt as <-.
        split; intros; lia.
      * injection Hpt as <-. split; [|reflexivity].
        intros Hn. apply Z.mod_pos_bound. exact Hn.
Qed.

(** The run on [(55, 9)] with ciphertext [17]: plaintext [2]. *)
Lemma recover_plaintext_witness :
  55 <> 0 /\
  (0 < 55 -> 0 <= sec_plaintext (Secrets 11 (inject_Z 5) 9 2) < 55) /\
  (1 < 55 -> 0 < sec_d (Secrets 11 (inject_Z 5) 9 2) ->
   sec_plaintext (Secrets 11 (inject_Z 5) 9 2)
   = 17 ^ sec_d (Secrets 11 (inject_Z 5) 9 2) mod 55).
Proof.
  apply (recover_plaintext 2 55 9 17). vm_compute. reflexivity.
Defined.

(** Property X6.  Whatever the key: if the run on [m^e mod n] comes to an
    end and the [p] and [q = n / p] it found are two different primes, then
    its plaintext is [m] (for [e > 0] and [0 <= m < n]). *)
Theorem recover_prime_factors fuel n e m s :
  recover fuel n e (m ^ e mod n) = Done s ->
  Z.prime (sec_p s) -> Z.prime (n / sec_p s) -> sec_p s <> n / sec_p s ->
  0 < e -> 0 <= m < n ->
  sec_plaintext s = m.
Proof.
  intros H Hp Hq Hne He Hm.
  destruct (recover_done_inv _ _ _ _ _ H)
    as (x & _ & _ & Hp0 & Hn & _ & Hd & Hpt).
  pose proof (Z.div_exact n (sec_p s) Hp0) as Hex. apply Hex in Hn.
  set (p := sec_p s) in *. set (q := n / p) in *.
  pose proof (Z.prime_ge_2 _ Hp). pose proof (Z.prime_ge_2 _ Hq).
  assert (Hphi : 2 <= (p - 1) * (q - 1)).
  { destruct (Z.eq_dec p 2) as [Ep|Ep].
    - assert (1 * 2 <= (p - 1) * (q - 1)) by (apply Z.mul_le_mono_nonneg; lia). lia.
    - assert (2 * 1 <= (p - 1) * (q - 1)) by (apply Z.mul_le_mono_nonneg; lia). lia. }
  unfold Sage.Integer_inverse_mod in Hd.
  rewrite (Z.abs_eq ((p - 1) * (q - 1))) in Hd by lia.
  destruct (Z.eqb_spec ((p - 1) * (q - 1)) 1) as [|_]; [lia|].
  destruct (Z.eqb_spec (Z.gcd e ((p - 1) * (q - 1))) 1) as [Hg|]; [|discriminate].
  injection Hd as Hd.
  destruct (Integer_inverse_mod_coprime e _ Hphi Hg) as (_ & Hrange & Hinv).
  rewrite Hd in Hrange, Hinv.
  rewrite Hn in Hpt, Hm.
  rewrite (power_mod_rsa p q e (sec_d s) m) in Hpt; try assumption; try lia.
  injection Hpt as <-. reflexivity.
Qed.

(** The key [(n, e) = (15, 17)], where [e > p = 5], and [m = 2]. *)
Lemma recover_prime_factors_witness :
  sec_plaintext (Secrets 5 (inject_Z 3) 1 2) = 2.
Proof.
  apply (recover_prime_factors 5 15 17 2 (Secrets 5 (inject_Z 3) 1 2)).
  - vm_compute. reflexivity.
  - apply is_prime_sound. vm_compute. reflexivity.
  - apply is_prime_sound. vm_compute. reflexivity.
  - vm_compute. discriminate.
  - lia.
  - lia.
Defined.

(** ** The cost of the search on a weak key *)

Lemma weak_key_multiplier_bound p q e :
  weak_key p q e -> 0 < e -> (q * e - 1) / p < e.
Proof.
  intros Hwk He.
  pose proof (weak_key_relation _ _ _ Hwk) as Hrel. unfold weak_relation in Hrel.
  destruct Hwk as [Hp Hq Hr _ _].
  set (K := (q * e - 1) / p) in *.
  destruct (Z.lt_ge_cases K e) as [|Hge]; [assumption|exfalso].
  assert (e * p <= K * p) by mono.
  assert (q * e <= (p - 1) * e) by mono.
  lia.
Qed.

(** Property X7.  On a weak key with [q] odd and [0 < e < p] the loop
    takes exactly [(q*e - 1)/p/2] turns, which is at most [(e - 1)/2]: with
    that much fuel it leaves with [p] as its only root, and with less fuel
    than turns it has not left yet. *)
Theorem weak_key_turns p q e :
  weak_key p q e -> Z.odd q = true -> 0 < e < p ->
  exists x,
    search (Z.to_nat ((e - 1) / 2)) (p * q) e 2 = Some x /\
    exit_r x = [(p, 1)] /\
    Z.of_nat (length (tested x)) = (q * e - 1) / p / 2 /\
    Z.of_nat (length (tested x)) <= (e - 1) / 2 /\
    forall fuel, (fuel < length (tested x))%nat -> search fuel (p * q) e 2 = None.
Proof.
  intros Hwk Hodd He.
  destruct (weak_key_multiplier p q e Hwk Hodd He) as [HK2 HKeven].
  pose proof (weak_key_multiplier_bound p q e Hwk ltac:(lia)) as HKe.
  pose proof (weak_key_search p q e Hwk Hodd He) as Hsearch.
  set (K := (q * e - 1) / p) in *.
  assert (Hhalf : K / 2 <= (e - 1) / 2) by (apply Z.div_le_mono; lia).
  assert (Hpos : 0 < K / 2) by (apply Z.div_str_pos; lia).
  assert (Hfuel0 : (Z.to_nat (K / 2) <= Z.to_nat ((e - 1) / 2))%nat)
    by (apply Z2Nat.inj_le; lia).
  eexists. split; [apply Hsearch; exact Hfuel0|]. cbn [exit_r tested].
  rewrite length_map, length_seq.
  repeat split; try lia.
  intros fuel Hfuel.
  destruct (search fuel (p * q) e 2) as [y|] eqn:E; [exfalso|reflexivity].
  destruct (search_exit _ _ _ _ _ E) as (j & Hj & Ht & _).
  assert (Hle : (fuel <= Z.to_nat (K / 2))%nat) by lia.
  pose proof (search_mono _ _ _ _ _ _ Hle E) as E'.
  rewrite (Hsearch _ (Nat.le_refl _)) in E'. injection E' as E'.
  apply (f_equal tested) in E'. cbn [tested] in E'.
  apply (f_equal (@length Z)) in E'.
  rewrite Ht, !length_map, !length_seq in E'. lia.
Qed.

(** The key [(p, q, e) = (11, 5, 9)]: two turns. *)
Lemma weak_key_turns_witness :
  exists x,
    search (Z.to_nat ((9 - 1) / 2)) (11 * 5) 9 2 = Some x /\
    exit_r x = [(11, 1)] /\
    Z.of_nat (length (tested x)) = (5 * 9 - 1) / 11 / 2 /\
    Z.of_nat (length (tested x)) <= (9 - 1) / 2 /\
    forall fuel, (fuel < length (tested x))%nat -> search fuel (11 * 5) 9 2 = None.
Proof.
  apply (weak_key_turns 11 5 9).
  - constructor; try (apply is_prime_sound); try lia; vm_compute; reflexivity.
  - reflexivity.
  - lia.
Defined.

(** ** From the file to the printed bytes *)

(** Property X8.  From the file to the printed bytes: on a weak key with
    [q] odd and [0 < e < p], for a file whose bytes denote [m^e mod n] with
    [0 <= m < n], the cell prints the last 48 bytes of the byte string of
    [m], once the fuel covers [(e - 1)/2] turns. *)
Theorem cell_weak_key p q e m (flag_encrypted : list byte) :
  weak_key p q e -> Z.odd q = true -> 0 < e < p -> 0 <= m < p * q ->
  PyCrypto.bytes_to_long flag_encrypted = m ^ e mod (p * q) ->
  forall fuel, (Z.to_nat ((e - 1) / 2) <= fuel)%nat ->
    cell fuel (p * q) e flag_encrypted
    = Done (trailing 48 (PyCrypto.long_to_bytes m)).
Proof.
  intros Hwk Hodd He Hm Hfile fuel Hfuel.
  pose proof (weak_key_multiplier_bound p q e Hwk ltac:(lia)) as HKe.
  destruct (weak_key_multiplier p q e Hwk Hodd He) as [HK2 _].
  unfold cell, output. rewrite Hfile.
  rewrite (weak_key_recover p q e Hwk Hodd He m fuel Hm).
  - cbn [bind sec_plaintext]. f_equal. unfold flag_of.
    change (-48) with (- Z.of_nat 48). apply slice_from_trailing. lia.
  - assert ((q * e - 1) / p / 2 <= (e - 1) / 2) by (apply Z.div_le_mono; lia).
    assert (0 <= (q * e - 1) / p / 2) by (apply Z.div_pos; lia).
    apply Nat.le_trans with (Z.to_nat ((e - 1) / 2)); [|exact Hfuel].
    apply Z2Nat.inj_le; lia.
Qed.

(** The key [(11, 5, 9)] and the file [00 11], the ciphertext of [2]. *)
Lemma cell_weak_key_witness :
  cell 4 (11 * 5) 9 [x00; x11] = Done (trailing 48 (PyCrypto.long_to_bytes 2)).
Proof.
  apply (cell_weak_key 11 5 9 2 [x00; x11]).
  - constructor; try (apply is_prime_sound); try lia; vm_compute; reflexivity.
  - reflexivity.
  - lia.
  - lia.
  - vm_compute. reflexivity.
  - vm_compute. lia.
Defined.
